(** * Ito++ : Black-Scholes model and Monte Carlo pricer

    A shallow embedding of the headers

      - [include/ito/utils/math.hpp]               (namespace [ito::math])
      - [include/ito/model/black_scholes_model.hpp] (namespace [ito::model])
      - [include/ito/method/monte_carlo.hpp]        (namespace [ito::method])

    Every class of the library is a template over a numeric type
    [template<math::Arithmetic T = double>].  The embedding keeps that shape:
    the code is written once over a type class [Arithmetic T] and then read
    at two instances, the real numbers (exact arithmetic) and IEEE 754
    binary64 (the default [T = double]). *)

From Stdlib Require Import String.
From Stdlib Require Import ZArith List Bool Lia.
From Stdlib Require Import Reals Lra Machin.
From Stdlib Require Import Floats.SpecFloat.
Import ListNotations.

Set Implicit Arguments.

(** ** The numeric interface ([math::Arithmetic]) *)

Declare Scope arith_scope.
Delimit Scope arith_scope with A.

(** The operations the headers apply to values of type [T]: the built-in
    operators, conversion from integer and decimal literals
    ([static_cast<T>(2)], [0.2316419]) and from [size_t], the [<cmath>]
    functions and the two constants of [<numbers>].  [of_decimal m e] is
    the literal with digits [m], the last [e] of them decimals.  The one
    law, [op_lt_neg], says that the opposite of a negative number is not
    negative; it bounds the recursion of [normal_cdf]. *)
Class Arithmetic (T : Type) : Type := {
  of_int : Z -> T;
  of_decimal : Z -> nat -> T;
  op_add : T -> T -> T;
  op_sub : T -> T -> T;
  op_mul : T -> T -> T;
  op_div : T -> T -> T;
  op_neg : T -> T;
  op_lt : T -> T -> bool;
  op_le : T -> T -> bool;
  std_sqrt : T -> T;
  std_exp : T -> T;
  std_log : T -> T;
  inv_sqrtpi_v : T;
  sqrt2_v : T;
  op_lt_neg : forall x, op_lt x (of_int 0) = true ->
                        op_lt (op_neg x) (of_int 0) = false
}.

Notation "x + y" := (op_add x y) : arith_scope.
Notation "x - y" := (op_sub x y) : arith_scope.
Notation "x * y" := (op_mul x y) : arith_scope.
Notation "x / y" := (op_div x y) : arith_scope.
Notation "- x" := (op_neg x) : arith_scope.
Notation "x <? y" := (op_lt x y) : arith_scope.
Notation "x <=? y" := (op_le x y) : arith_scope.
Notation "0" := (of_int 0%Z) : arith_scope.
Notation "1" := (of_int 1%Z) : arith_scope.
Notation "2" := (of_int 2%Z) : arith_scope.

(** [std::max(a, b)] is [(a < b) ? b : a]. *)
Definition std_max {T} `{Arithmetic T} (a b : T) : T :=
  if (a <? b)%A then b else a.

(** [size_t] is a 64-bit unsigned integer. *)
Definition size_t_modulus : Z := 2 ^ 64.
Definition size_t_sub (a b : Z) : Z := ((a - b) mod size_t_modulus)%Z.

(** ** [ito::math] *)

Module math.
Section Math.
Context {T : Type} `{Arithmetic T}.
Local Open Scope arith_scope.

(** [constants::inv_sqrt_2pi] *)
Definition inv_sqrt_2pi : T := inv_sqrtpi_v / sqrt2_v.

Definition normal_pdf (x : T) : T :=
  inv_sqrt_2pi * std_exp (- x * x / 2).

Definition a1 : T := of_decimal 319381530 9.
Definition a2 : T := of_decimal (-356563782) 9.
Definition a3 : T := of_decimal 1781477937 9.
Definition a4 : T := of_decimal (-1821255978) 9.
Definition a5 : T := of_decimal 1330274429 9.
Definition p : T := of_decimal 2316419 7.

(** The part of [normal_cdf] after the test [x < 0]: the Abramowitz and
    Stegun polynomial, by Horner's scheme. *)
Definition normal_cdf_tail (x : T) : T :=
  let t := 1 / (1 + p * x) in
  let poly := t * (a1 + t * (a2 + t * (a3 + t * (a4 + t * a5)))) in
  1 - normal_pdf x * poly.

(** [normal_cdf] as the source writes it, a recursive function; [fuel]
    bounds the depth of the recursion. *)
Fixpoint normal_cdf_rec (fuel : nat) (x : T) : option T :=
  match fuel with
  | O => None
  | S fuel' =>
      if x <? 0 then
        match normal_cdf_rec fuel' (- x) with
        | Some y => Some (1 - y)
        | None => None
        end
      else Some (normal_cdf_tail x)
  end.

(** The value [normal_cdf_rec] returns (lemma [normal_cdf_rec_total]
    below): the recursive call is on [- x], which is not negative. *)
Definition normal_cdf (x : T) : T :=
  if x <? 0 then 1 - normal_cdf_tail (- x) else normal_cdf_tail x.
End Math.
End math.

(** ** [ito::model] *)

(** [std::invalid_argument], the one exception the headers throw. *)
Inductive exception : Type :=
  | invalid_argument (what : string).

Module model.
Section BlackScholes.
Context {T : Type} `{Arithmetic T}.
Local Open Scope arith_scope.

Record BlackScholesCreateInfo : Type := {
  spot_price : T;
  strike_price : T;
  risk_free_rate : T;
  volatility : T;
  time_to_maturity : T
}.

(** [BlackScholesCreateInfo::validate]: the first failing test throws. *)
Definition validate (info : BlackScholesCreateInfo) : exception + unit :=
  if spot_price info <=? 0 then
    inl (invalid_argument "Spot price must be positive"%string)
  else if strike_price info <=? 0 then
    inl (invalid_argument "Strike price must be positive"%string)
  else if volatility info <? 0 then
    inl (invalid_argument "Volatility cannot be negative"%string)
  else if time_to_maturity info <=? 0 then
    inl (invalid_argument "Time to maturity must be positive"%string)
  else inr tt.

Record Greeks : Type := {
  delta : T;
  gamma : T;
  vega : T;
  theta : T;
  rho : T
}.

(** The default member initialisers of [Greeks]. *)
Definition Greeks_default : Greeks :=
  {| delta := 0; gamma := 0; vega := 0; theta := 0; rho := 0 |}.

(** The object: the five parameters and the [mutable] caches. *)
Record BlackScholesModel : Type := {
  S_ : T;
  K_ : T;
  r_ : T;
  sigma_ : T;
  T_ : T;
  d1_ : T;
  d2_ : T;
  d_cached_ : bool;
  call_greeks_ : Greeks;
  put_greeks_ : Greeks;
  call_greeks_cached_ : bool;
  put_greeks_cached_ : bool
}.

(** Assignments to the mutable members. *)
Definition set_d (m : BlackScholesModel) (d1 d2 : T) : BlackScholesModel :=
  {| S_ := S_ m; K_ := K_ m; r_ := r_ m; sigma_ := sigma_ m; T_ := T_ m;
     d1_ := d1; d2_ := d2; d_cached_ := true;
     call_greeks_ := call_greeks_ m; put_greeks_ := put_greeks_ m;
     call_greeks_cached_ := call_greeks_cached_ m;
     put_greeks_cached_ := put_greeks_cached_ m |}.

Definition set_call_greeks (m : BlackScholesModel) (g : Greeks)
  : BlackScholesModel :=
  {| S_ := S_ m; K_ := K_ m; r_ := r_ m; sigma_ := sigma_ m; T_ := T_ m;
     d1_ := d1_ m; d2_ := d2_ m; d_cached_ := d_cached_ m;
     call_greeks_ := g; put_greeks_ := put_greeks_ m;
     call_greeks_cached_ := true;
     put_greeks_cached_ := put_greeks_cached_ m |}.

Definition set_put_greeks (m : BlackScholesModel) (g : Greeks)
  : BlackScholesModel :=
  {| S_ := S_ m; K_ := K_ m; r_ := r_ m; sigma_ := sigma_ m; T_ := T_ m;
     d1_ := d1_ m; d2_ := d2_ m; d_cached_ := d_cached_ m;
     call_greeks_ := call_greeks_ m; put_greeks_ := g;
     call_greeks_cached_ := call_greeks_cached_ m;
     put_greeks_cached_ := true |}.

Definition compute_d (m : BlackScholesModel) : BlackScholesModel :=
  if d_cached_ m then m
  else
    let sqrt_T := std_sqrt (T_ m) in
    let sigma_sqrt_T := sigma_ m * sqrt_T in
    let d1 := (std_log (S_ m / K_ m)
               + (r_ m + sigma_ m * sigma_ m / 2) * T_ m) / sigma_sqrt_T in
    let d2 := d1 - sigma_sqrt_T in
    set_d m d1 d2.

Definition compute_call_greeks (m : BlackScholesModel) : BlackScholesModel :=
  if call_greeks_cached_ m then m
  else
    let m := compute_d m in
    let Phi := math.normal_cdf in
    let phi := math.normal_pdf in
    let sqrt_T := std_sqrt (T_ m) in
    let exp_neg_rT := std_exp (- r_ m * T_ m) in
    let phi_d1 := phi (d1_ m) in
    set_call_greeks m
      {| delta := Phi (d1_ m);
         gamma := phi_d1 / (S_ m * sigma_ m * sqrt_T);
         vega := S_ m * phi_d1 * sqrt_T;
         theta := - (S_ m * phi_d1 * sigma_ m) / (2 * sqrt_T)
                  - r_ m * K_ m * exp_neg_rT * Phi (d2_ m);
         rho := K_ m * T_ m * exp_neg_rT * Phi (d2_ m) |}.

Definition compute_put_greeks (m : BlackScholesModel) : BlackScholesModel :=
  if put_greeks_cached_ m then m
  else
    let m := compute_d m in
    let Phi := math.normal_cdf in
    let phi := math.normal_pdf in
    let sqrt_T := std_sqrt (T_ m) in
    let exp_neg_rT := std_exp (- r_ m * T_ m) in
    let phi_d1 := phi (d1_ m) in
    set_put_greeks m
      {| delta := Phi (d1_ m) - 1;
         gamma := phi_d1 / (S_ m * sigma_ m * sqrt_T);
         vega := S_ m * phi_d1 * sqrt_T;
         theta := - (S_ m * phi_d1 * sigma_ m) / (2 * sqrt_T)
                  + r_ m * K_ m * exp_neg_rT * Phi (- d2_ m);
         rho := - K_ m * T_ m * exp_neg_rT * Phi (- d2_ m) |}.

(** The constructor: the members are initialised, then [info.validate()]
    runs; an exception leaves no object. *)
Definition BlackScholesModel_ctor (info : BlackScholesCreateInfo)
  : exception + BlackScholesModel :=
  match validate info with
  | inl e => inl e
  | inr _ =>
      inr {| S_ := spot_price info;
             K_ := strike_price info;
             r_ := risk_free_rate info;
             sigma_ := volatility info;
             T_ := time_to_maturity info;
             d1_ := 0; d2_ := 0; d_cached_ := false;
             call_greeks_ := Greeks_default;
             put_greeks_ := Greeks_default;
             call_greeks_cached_ := false;
             put_greeks_cached_ := false |}
  end.

(** The public [const] methods return their value and the object with its
    caches filled. *)
Definition call_price (m : BlackScholesModel) : T * BlackScholesModel :=
  let m := compute_d m in
  let Phi := math.normal_cdf in
  let C := S_ m * Phi (d1_ m) - K_ m * std_exp (- r_ m * T_ m) * Phi (d2_ m) in
  (C, m).

Definition put_price (m : BlackScholesModel) : T * BlackScholesModel :=
  let (C, m) := call_price m in
  let P := C - S_ m + K_ m * std_exp (- r_ m * T_ m) in
  (P, m).

Definition call_greeks (m : BlackScholesModel) : Greeks * BlackScholesModel :=
  let m := compute_call_greeks m in
  (call_greeks_ m, m).

Definition put_greeks (m : BlackScholesModel) : Greeks * BlackScholesModel :=
  let m := compute_put_greeks m in
  (put_greeks_ m, m).

(** A read of the public interface, and a sequence of reads on one object. *)
Inductive read : Type :=
  | read_call_price
  | read_put_price
  | read_call_greeks
  | read_put_greeks.

Definition do_read (m : BlackScholesModel) (q : read) : BlackScholesModel :=
  match q with
  | read_call_price => snd (call_price m)
  | read_put_price => snd (put_price m)
  | read_call_greeks => snd (call_greeks m)
  | read_put_greeks => snd (put_greeks m)
  end.

Definition do_reads (m : BlackScholesModel) (qs : list read)
  : BlackScholesModel :=
  fold_left do_read qs m.
End BlackScholes.

Arguments BlackScholesCreateInfo T : clear implicits.
Arguments Greeks T : clear implicits.
Arguments BlackScholesModel T : clear implicits.
End model.

(** ** [ito::method] *)

(** Vectors are lists.  [vector_set v i x] is the assignment [v[i] = x];
    the source only writes inside the vector, and outside it the model
    leaves the list as it is. *)
Fixpoint vector_set {A : Type} (v : list A) (i : nat) (x : A) : list A :=
  match v, i with
  | [], _ => []
  | _ :: v', O => x :: v'
  | y :: v', S i' => y :: vector_set v' i' x
  end.

(** [std::transform(first, last, d_first, f)]: the elements of the source
    range mapped by [f] overwrite the start of the destination.  Each output
    depends on its own input only, so the execution policy does not change
    the result. *)
Definition std_transform {A B : Type} (f : A -> B) (src : list A)
  (dst : list B) : list B :=
  map f src ++ skipn (length src) dst.

Module method.
Inductive ExecutionPolicy : Type :=
  | Auto
  | Sequential
  | Parallel.

(** [num_simulations] is a [size_t] and [seed] an [unsigned]; the default
    member initialisers are [100'000], [std::random_device{}()] and
    [Auto]. *)
Record MonteCarloCreateInfo : Type := {
  num_simulations : Z;
  seed : Z;
  policy : ExecutionPolicy
}.

Section MonteCarlo.
Context {T : Type} `{Arithmetic T}.
Local Open Scope arith_scope.

Record MonteCarloResult : Type := {
  price : T;
  standard_error : T
}.

Definition confidence_interval (res : MonteCarloResult) : T :=
  of_decimal 196 2 * standard_error res.

Record CallPutResult : Type := {
  call : MonteCarloResult;
  put : MonteCarloResult
}.

(** The random source.  [Gen] is the joint state of the members [rng_]
    ([std::mt19937]) and [normal_] ([std::normal_distribution<T>]);
    [seed_gen] is their initialisation [rng_(config.seed)],
    [normal_(0.0, 1.0)]; [normal_draw] is the call [normal_(rng_)], which
    returns a variate and advances the state. *)
Variable Gen : Type.
Variable seed_gen : Z -> Gen.
Variable normal_draw : Gen -> T * Gen.

Record MonteCarloPricer : Type := {
  config_ : MonteCarloCreateInfo;
  gen_ : Gen
}.

(** The constructor has no [throw]: it copies the configuration and seeds
    the generator. *)
Definition MonteCarloPricer_ctor (config : MonteCarloCreateInfo)
  : exception + MonteCarloPricer :=
  inr {| config_ := config; gen_ := seed_gen (seed config) |}.

Definition simulate_gbm_terminal (g : Gen) (S0 r sigma time : T) : T * Gen :=
  let (Z, g) := normal_draw g in
  let drift := (r - (sigma * sigma) / 2) * time in
  let diffusion := sigma * std_sqrt time * Z in
  (S0 * std_exp (drift + diffusion), g).

(** [payoffs.size()], a [size_t]. *)
Definition vector_size (v : list T) : Z :=
  (Z.of_nat (length v) mod size_t_modulus)%Z.

Definition compute_statistics (payoffs : list T) (discount_factor : T)
  : MonteCarloResult :=
  let N := vector_size payoffs in
  let sum := fold_left (fun acc payoff => acc + payoff) payoffs 0 in
  let mean := sum / of_int N in
  let variance :=
    fold_left (fun variance payoff =>
                 let diff := payoff - mean in
                 variance + diff * diff) payoffs 0 in
  let variance := variance / of_int (size_t_sub N 1) in
  let std_error := std_sqrt (variance / of_int N) in
  {| price := discount_factor * mean;
     standard_error := discount_factor * std_error |}.

Section Pricing.
Variables S0 K r sigma time : T.

Definition call_payoff (ST : T) : T := std_max (ST - K) 0.
Definition put_payoff (ST : T) : T := std_max (K - ST) 0.

(** The loop of the sequential path; [n] iterations remain. *)
Fixpoint sequential_loop (n : nat) (g : Gen)
  (call_payoffs put_payoffs : list T) : list T * list T * Gen :=
  match n with
  | O => (call_payoffs, put_payoffs, g)
  | S n' =>
      let (ST, g) := simulate_gbm_terminal g S0 r sigma time in
      sequential_loop n' g
        (call_payoffs ++ [call_payoff ST])
        (put_payoffs ++ [put_payoff ST])
  end.

(** The payoff vectors of the sequential path and the generator after
    the loop. *)
Definition sequential_payoffs (n : Z) (g : Gen)
  : list T * list T * Gen :=
  sequential_loop (Z.to_nat n) g [] [].

(** The first loop of the parallel path: [random_normals[i] =
    normal_(rng_)] for [i], [i + 1], ...; [n] iterations remain. *)
Fixpoint draw_loop (n i : nat) (g : Gen) (random_normals : list T)
  : list T * Gen :=
  match n with
  | O => (random_normals, g)
  | S n' =>
      let (Z, g) := normal_draw g in
      draw_loop n' (S i) g (vector_set random_normals i Z)
  end.

(** The pricing function of one variate in the parallel path. *)
Definition terminal_price (Z : T) : T :=
  let drift := (r - (sigma * sigma) / 2) * time in
  let vol_sqrt_t := sigma * std_sqrt time in
  S0 * std_exp (drift + vol_sqrt_t * Z).

(** The vectors of the parallel path, [std::vector<T> v(n)] being [n]
    zeros, and the generator after the draws. *)
Definition parallel_payoffs (n : Z) (g : Gen)
  : list T * list T * Gen :=
  let size := Z.to_nat n in
  let (random_normals, g) := draw_loop size O g (repeat 0 size) in
  let terminal_prices :=
    std_transform terminal_price random_normals (repeat 0 size) in
  let call_payoffs :=
    std_transform call_payoff terminal_prices (repeat 0 size) in
  let put_payoffs :=
    std_transform put_payoff terminal_prices (repeat 0 size) in
  (call_payoffs, put_payoffs, g).

Definition statistics_of (payoffs : list T * list T * Gen)
  (this : MonteCarloPricer) : CallPutResult * MonteCarloPricer :=
  let '(call_payoffs, put_payoffs, g) := payoffs in
  let DF := std_exp (- r * time) in
  ({| call := compute_statistics call_payoffs DF;
      put := compute_statistics put_payoffs DF |},
   {| config_ := config_ this; gen_ := g |}).

Definition price_european_call_and_put_parallel (this : MonteCarloPricer)
  : CallPutResult * MonteCarloPricer :=
  statistics_of
    (parallel_payoffs (num_simulations (config_ this)) (gen_ this)) this.

Definition price_european_call_and_put_sequential (this : MonteCarloPricer)
  : CallPutResult * MonteCarloPricer :=
  statistics_of
    (sequential_payoffs (num_simulations (config_ this)) (gen_ this)) this.

Definition price_european_call_and_put (this : MonteCarloPricer)
  : CallPutResult * MonteCarloPricer :=
  match policy (config_ this) with
  | Sequential => price_european_call_and_put_sequential this
  | Parallel => price_european_call_and_put_parallel this
  | Auto =>
      if (10000 <=? num_simulations (config_ this))%Z then
        price_european_call_and_put_parallel this
      else price_european_call_and_put_sequential this
  end.
End Pricing.
End MonteCarlo.

Arguments MonteCarloResult T : clear implicits.
Arguments CallPutResult T : clear implicits.
End method.

(** ** The instance of exact real arithmetic *)

Module real.
Local Open Scope R_scope.

Definition Rltb (x y : R) : bool := if Rlt_dec x y then true else false.
Definition Rleb (x y : R) : bool := if Rle_dec x y then true else false.

Lemma Rltb_true (x y : R) : Rltb x y = true <-> x < y.
Proof. unfold Rltb. destruct (Rlt_dec x y); split; intros; auto; discriminate. Qed.

Lemma Rltb_false (x y : R) : Rltb x y = false <-> ~ x < y.
Proof.
  unfold Rltb.
  destruct (Rlt_dec x y); split; intros; auto; try discriminate; tauto.
Qed.

Lemma Rleb_true (x y : R) : Rleb x y = true <-> x <= y.
Proof. unfold Rleb. destruct (Rle_dec x y); split; intros; auto; discriminate. Qed.

Lemma Rleb_false (x y : R) : Rleb x y = false <-> ~ x <= y.
Proof.
  unfold Rleb.
  destruct (Rle_dec x y); split; intros; auto; try discriminate; tauto.
Qed.

Lemma Rltb_neg (x : R) : Rltb x (IZR 0) = true -> Rltb (- x) (IZR 0) = false.
Proof. rewrite Rltb_true, Rltb_false. lra. Qed.

(** Exact real arithmetic, the arithmetic the formulas of the
    specification are written in.  [Rdiv] and [sqrt] are total functions:
    a quotient by [0] and the root of a negative number have a value here
    ([x / 0 = 0], [sqrt x = 0] for [x < 0]), where [double] gives an
    infinity or a NaN.  A theorem over this instance therefore speaks for
    the program only on inputs where every divisor is non-zero and every
    radicand non-negative, or when its conclusion does not depend on the
    value of such a term.  The theorems below on prices, Greeks, paths
    and standard errors carry the hypotheses that ensure it (a positive
    volatility for [compute_d], two trials at least for the variance, a
    maturity that is not negative for the root in the terminal price);
    the behaviour outside these domains is stated over [binary64].
    Rounding is likewise absent from this instance: an identity proved
    here is one of the formulas, and a tolerance for [double] is stated
    over [binary64] only. *)
#[export] Instance R_Arithmetic : Arithmetic R := {|
  of_int := IZR;
  of_decimal := fun m e => IZR m / 10 ^ e;
  op_add := Rplus;
  op_sub := Rminus;
  op_mul := Rmult;
  op_div := Rdiv;
  op_neg := Ropp;
  op_lt := Rltb;
  op_le := Rleb;
  std_sqrt := sqrt;
  std_exp := exp;
  std_log := ln;
  inv_sqrtpi_v := / sqrt PI;
  sqrt2_v := sqrt 2;
  op_lt_neg := Rltb_neg
|}.

(** Unfold the interface at the instance [R]. *)
Ltac to_R :=
  cbn [of_int of_decimal op_add op_sub op_mul op_div op_neg op_lt op_le
       std_sqrt std_exp std_log inv_sqrtpi_v sqrt2_v R_Arithmetic] in *.
End real.

(** ** The instance of IEEE 754 binary64 ([T = double]) *)

Module binary64.
Definition prec : Z := 53.
Definition emax : Z := 1024.

(** Conversion from an integer, rounded to nearest even. *)
Definition of_Z (z : Z) : spec_float := binary_normalize prec emax z 0 false.

(** A decimal literal: both [m] and [10 ^ e] are binary64 numbers for the
    literals of the headers, so the rounded quotient is the literal
    rounded. *)
Definition of_dec (m : Z) (e : nat) : spec_float :=
  SFdiv prec emax (of_Z m) (of_Z (10 ^ Z.of_nat e)).

Definition is_nan (x : spec_float) : bool :=
  match x with S754_nan => true | _ => false end.

Definition is_zero (x : spec_float) : bool :=
  match x with S754_zero _ => true | _ => false end.

(** [std::isfinite] *)
Definition is_finite (x : spec_float) : bool :=
  match x with S754_zero _ | S754_finite _ _ _ => true | _ => false end.

Lemma SFltb_neg (x : spec_float) :
  SFltb x (of_Z 0) = true -> SFltb (SFopp x) (of_Z 0) = false.
Proof. destruct x as [s|s| |s m e]; try destruct s; cbn; congruence. Qed.

(** [exp] and [log] come from the C library; the instance takes them as
    parameters.  The two constants are the binary64 values of
    [std::numbers::inv_sqrtpi] and [std::numbers::sqrt2]. *)
Definition binary64_Arithmetic (libm_exp libm_log : spec_float -> spec_float)
  : Arithmetic spec_float := {|
  of_int := of_Z;
  of_decimal := of_dec;
  op_add := SFadd prec emax;
  op_sub := SFsub prec emax;
  op_mul := SFmul prec emax;
  op_div := SFdiv prec emax;
  op_neg := SFopp;
  op_lt := SFltb;
  op_le := SFleb;
  std_sqrt := SFsqrt prec emax;
  std_exp := libm_exp;
  std_log := libm_log;
  inv_sqrtpi_v := S754_finite false 5081767996463981 (-53);
  sqrt2_v := S754_finite false 6369051672525773 (-52);
  op_lt_neg := SFltb_neg
|}.
End binary64.

(** * Properties *)

(** ** [normal_cdf]: the recursion, for every numeric type *)

Module math_facts.
Section Generic.
Context {T : Type} `{Arithmetic T}.
Local Open Scope arith_scope.

(** Two levels of recursion are enough: [normal_cdf_rec] returns, and
    returns [normal_cdf]. *)
Lemma normal_cdf_rec_total (fuel : nat) (x : T) :
  math.normal_cdf_rec (S (S fuel)) x = Some (math.normal_cdf x).
Proof.
  unfold math.normal_cdf. cbn [math.normal_cdf_rec].
  destruct (x <? 0) eqn:Hx; [ | reflexivity ].
  now rewrite (op_lt_neg x Hx).
Qed.

(** The equation of the source. *)
Lemma normal_cdf_unfold (x : T) :
  math.normal_cdf x =
  if x <? 0 then 1 - math.normal_cdf (- x) else math.normal_cdf_tail x.
Proof.
  unfold math.normal_cdf at 1.
  destruct (x <? 0) eqn:Hx; [ | reflexivity ].
  unfold math.normal_cdf. now rewrite (op_lt_neg x Hx).
Qed.
End Generic.
End math_facts.

(** ** [normal_cdf] over the reals *)

Module normal_cdf_real.
Import real.
Local Open Scope R_scope.

(** *** Rational bounds on [PI], from Machin's series *)

Lemma PI_lower : 3.14159265 < PI.
Proof.
  pose proof (PI_2_3_7_ineq 3) as [Hlo _].
  unfold sum_f_R0, tg_alt, PI_2_3_7_tg, Ratan_seq in Hlo.
  rewrite !INR_IZR_INZ in Hlo.
  cbn -[IZR Rmult Rplus Rdiv Rinv pow] in Hlo.
  simpl pow in Hlo.
  lra.
Qed.

Lemma PI_upper : PI < 3.141592654.
Proof.
  pose proof (PI_2_3_7_ineq 4) as [_ Hhi].
  change (2 * 4)%nat with 8%nat in Hhi.
  unfold sum_f_R0, tg_alt, PI_2_3_7_tg, Ratan_seq in Hhi.
  rewrite !INR_IZR_INZ in Hhi.
  cbn -[IZR Rmult Rplus Rdiv Rinv pow] in Hhi.
  simpl pow in Hhi.
  lra.
Qed.

(** *** [normal_cdf] at the origin *)

(** The sum of the five coefficients: the polynomial at [t = 1]. *)
Definition poly_at_1 : R := 1.253314136.

Lemma inv_sqrt_2pi_pos : 0 < math.inv_sqrt_2pi (T := R).
Proof.
  unfold math.inv_sqrt_2pi. to_R.
  apply Rdiv_lt_0_compat.
  - apply Rinv_0_lt_compat, sqrt_lt_R0, PI_RGT_0.
  - apply sqrt_lt_R0. lra.
Qed.

Lemma inv_sqrt_2pi_sqr :
  math.inv_sqrt_2pi (T := R) * math.inv_sqrt_2pi (T := R) * (2 * PI) = 1.
Proof.
  unfold math.inv_sqrt_2pi. to_R.
  assert (HPI : 0 < PI) by apply PI_RGT_0.
  assert (Hs : sqrt PI * sqrt PI = PI) by (apply sqrt_sqrt; lra).
  assert (H2 : sqrt 2 * sqrt 2 = 2) by (apply sqrt_sqrt; lra).
  assert (Hp : 0 < sqrt PI) by (apply sqrt_lt_R0; lra).
  assert (Hq : 0 < sqrt 2) by (apply sqrt_lt_R0; lra).
  replace (2 * PI) with ((sqrt 2 * sqrt 2) * (sqrt PI * sqrt PI))
    by (rewrite Hs, H2; reflexivity).
  field. split; lra.
Qed.


(** [pdf(0) * poly(1)] is just below one half. *)
Lemma pdf_poly_bounds :
  0.5 - 1e-9 < math.inv_sqrt_2pi (T := R) * poly_at_1 < 0.5 - 5e-11.
Proof.
  pose proof inv_sqrt_2pi_pos as Hc.
  pose proof inv_sqrt_2pi_sqr as Hsq.
  pose proof PI_lower as Hlo.
  pose proof PI_upper as Hhi.
  unfold poly_at_1.
  set (c := math.inv_sqrt_2pi) in *.
  split.
  - apply Rnot_le_lt. intros Hle.
    assert (c * 1.253314136 * (c * 1.253314136)
            <= (0.5 - 1e-9) * (0.5 - 1e-9)) by nra.
    nra.
  - apply Rnot_le_lt. intros Hle.
    assert ((0.5 - 5e-11) * (0.5 - 5e-11)
            <= c * 1.253314136 * (c * 1.253314136)) by nra.
    nra.
Qed.


(** *** Reflection *)

Lemma normal_cdf_reflection (x : R) :
  x < 0 -> math.normal_cdf x = 1 - math.normal_cdf (- x).
Proof.
  intros Hx. rewrite math_facts.normal_cdf_unfold at 1. to_R.
  now replace (Rltb x 0) with true by (symmetry; apply Rltb_true; lra).
Qed.

Lemma normal_cdf_sum_nonzero (x : R) :
  x <> 0 -> math.normal_cdf x + math.normal_cdf (- x) = 1.
Proof.
  intros Hx. destruct (Rlt_dec x 0) as [Hneg | Hpos].
  - rewrite (normal_cdf_reflection Hneg). lra.
  - assert (Hn : - x < 0) by lra.
    rewrite (normal_cdf_reflection Hn), Ropp_involutive. lra.
Qed.




End normal_cdf_real.

(** ** The Black-Scholes model, for every numeric type *)

Module model_facts.
Import model.

Section Generic.
Context {T : Type} `{Arithmetic T}.
Local Open Scope arith_scope.

(** *** The formulas of the specification *)

Section Formulas.
Variable info : BlackScholesCreateInfo T.
Let S := spot_price info.
Let K := strike_price info.
Let r := risk_free_rate info.
Let sigma := volatility info.
Let tau := time_to_maturity info.
Let Phi := math.normal_cdf (T := T).
Let phi := math.normal_pdf (T := T).

Definition spec_d1 : T :=
  (std_log (S / K) + (r + sigma * sigma / 2) * tau) / (sigma * std_sqrt tau).

Definition spec_d2 : T := spec_d1 - sigma * std_sqrt tau.

Definition spec_call_price : T :=
  S * Phi spec_d1 - K * std_exp (- r * tau) * Phi spec_d2.

Definition spec_put_price : T :=
  spec_call_price - S + K * std_exp (- r * tau).

Definition spec_call_greeks : Greeks T :=
  {| delta := Phi spec_d1;
     gamma := phi spec_d1 / (S * sigma * std_sqrt tau);
     vega := S * phi spec_d1 * std_sqrt tau;
     theta := - (S * phi spec_d1 * sigma) / (2 * std_sqrt tau)
              - r * K * std_exp (- r * tau) * Phi spec_d2;
     rho := K * tau * std_exp (- r * tau) * Phi spec_d2 |}.

Definition spec_put_greeks : Greeks T :=
  {| delta := Phi spec_d1 - 1;
     gamma := phi spec_d1 / (S * sigma * std_sqrt tau);
     vega := S * phi spec_d1 * std_sqrt tau;
     theta := - (S * phi spec_d1 * sigma) / (2 * std_sqrt tau)
              + r * K * std_exp (- r * tau) * Phi (- spec_d2);
     rho := - K * tau * std_exp (- r * tau) * Phi (- spec_d2) |}.
End Formulas.

(** *** The invariant of the object *)

(** The parameters are those of [info], and every cache that is marked
    as filled holds the value of the formula. *)
Record consistent (info : BlackScholesCreateInfo T) (m : BlackScholesModel T)
  : Prop := {
  cons_S : S_ m = spot_price info;
  cons_K : K_ m = strike_price info;
  cons_r : r_ m = risk_free_rate info;
  cons_sigma : sigma_ m = volatility info;
  cons_T : T_ m = time_to_maturity info;
  cons_d : d_cached_ m = true ->
           d1_ m = spec_d1 info /\ d2_ m = spec_d2 info;
  cons_call : call_greeks_cached_ m = true ->
              call_greeks_ m = spec_call_greeks info;
  cons_put : put_greeks_cached_ m = true ->
             put_greeks_ m = spec_put_greeks info
}.

Lemma ctor_inr (info : BlackScholesCreateInfo T) (m : BlackScholesModel T) :
  BlackScholesModel_ctor info = inr m ->
  validate info = inr tt /\
  m = {| S_ := spot_price info; K_ := strike_price info;
         r_ := risk_free_rate info; sigma_ := volatility info;
         T_ := time_to_maturity info;
         d1_ := 0; d2_ := 0; d_cached_ := false;
         call_greeks_ := Greeks_default; put_greeks_ := Greeks_default;
         call_greeks_cached_ := false; put_greeks_cached_ := false |}.
Proof.
  unfold BlackScholesModel_ctor.
  destruct (validate info) as [e | []]; [ discriminate | ].
  intros E. injection E as <-. split; reflexivity.
Qed.

Lemma ctor_consistent info m :
  BlackScholesModel_ctor info = inr m -> consistent info m.
Proof.
  intros E. apply ctor_inr in E as [_ ->].
  constructor; cbn; try reflexivity; discriminate.
Qed.

Lemma compute_d_cached m : d_cached_ (compute_d m) = true.
Proof. unfold compute_d. destruct (d_cached_ m) eqn:E; [ exact E | reflexivity ]. Qed.

Lemma compute_d_consistent info m :
  consistent info m -> consistent info (compute_d m).
Proof.
  intros C. unfold compute_d. destruct (d_cached_ m) eqn:E; [ exact C | ].
  destruct C as [HS HK Hr Hs HT Hd Hc Hp].
  constructor; cbn; auto.
  intros _. unfold spec_d2, spec_d1. rewrite HS, HK, Hr, Hs, HT. split; reflexivity.
Qed.

Lemma compute_call_greeks_consistent info m :
  consistent info m -> consistent info (compute_call_greeks m).
Proof.
  intros C. unfold compute_call_greeks.
  destruct (call_greeks_cached_ m) eqn:E; [ exact C | ].
  apply compute_d_consistent in C.
  pose proof (compute_d_cached m) as Hc.
  destruct C as [HS HK Hr Hs HT Hd Hcg Hpg].
  destruct (Hd Hc) as [H1 H2].
  constructor; cbn; auto.
  intros _. unfold spec_call_greeks. rewrite HS, HK, Hr, Hs, HT, H1, H2. reflexivity.
Qed.

Lemma compute_put_greeks_consistent info m :
  consistent info m -> consistent info (compute_put_greeks m).
Proof.
  intros C. unfold compute_put_greeks.
  destruct (put_greeks_cached_ m) eqn:E; [ exact C | ].
  apply compute_d_consistent in C.
  pose proof (compute_d_cached m) as Hc.
  destruct C as [HS HK Hr Hs HT Hd Hcg Hpg].
  destruct (Hd Hc) as [H1 H2].
  constructor; cbn; auto.
  intros _. unfold spec_put_greeks. rewrite HS, HK, Hr, Hs, HT, H1, H2. reflexivity.
Qed.

Lemma do_read_consistent info m q :
  consistent info m -> consistent info (do_read m q).
Proof.
  intros C. destruct q; cbn.
  - now apply compute_d_consistent.
  - unfold put_price, call_price. cbn. now apply compute_d_consistent.
  - now apply compute_call_greeks_consistent.
  - now apply compute_put_greeks_consistent.
Qed.

Lemma do_reads_consistent info qs : forall m,
  consistent info m -> consistent info (do_reads m qs).
Proof.
  unfold do_reads. induction qs as [ | q qs IH]; intros m C; cbn; [ exact C | ].
  apply IH. now apply do_read_consistent.
Qed.

(** Every object reached from the constructor by reads is consistent. *)
Lemma reachable_consistent info m qs :
  BlackScholesModel_ctor info = inr m -> consistent info (do_reads m qs).
Proof. intros E. apply do_reads_consistent. now apply ctor_consistent. Qed.

(** *** The values the reads return *)

Lemma call_price_consistent info m :
  consistent info m ->
  fst (call_price m) = spec_call_price info /\
  consistent info (snd (call_price m)) /\
  d_cached_ (snd (call_price m)) = true.
Proof.
  intros C. unfold call_price. cbn.
  pose proof (compute_d_cached m) as Hc.
  apply compute_d_consistent in C.
  split; [ | split; assumption ].
  destruct C as [HS HK Hr Hs HT Hd _ _]. destruct (Hd Hc) as [H1 H2].
  unfold spec_call_price. rewrite HS, HK, Hr, HT, H1, H2. reflexivity.
Qed.

Lemma put_price_consistent info m :
  consistent info m ->
  fst (put_price m) = spec_put_price info /\
  fst (put_price m) =
    fst (call_price m) - spot_price info
    + strike_price info
      * std_exp (- risk_free_rate info * time_to_maturity info).
Proof.
  intros C. destruct (call_price_consistent C) as (HC & C' & _).
  unfold put_price. destruct (call_price m) as [c m'] eqn:E. cbn in *.
  destruct C' as [HS HK Hr _ HT _ _ _].
  unfold spec_put_price. rewrite HS, HK, Hr, HT, HC. split; reflexivity.
Qed.

Lemma call_greeks_consistent info m :
  consistent info m -> fst (call_greeks m) = spec_call_greeks info.
Proof.
  intros C. unfold call_greeks. cbn.
  apply compute_call_greeks_consistent in C.
  apply (cons_call C).
  unfold compute_call_greeks.
  destruct (call_greeks_cached_ m) eqn:E; [ exact E | reflexivity ].
Qed.

Lemma put_greeks_consistent info m :
  consistent info m -> fst (put_greeks m) = spec_put_greeks info.
Proof.
  intros C. unfold put_greeks. cbn.
  apply compute_put_greeks_consistent in C.
  apply (cons_put C).
  unfold compute_put_greeks.
  destruct (put_greeks_cached_ m) eqn:E; [ exact E | reflexivity ].
Qed.

Lemma do_reads_d_cached qs : forall m : BlackScholesModel T,
  d_cached_ m = true -> d_cached_ (do_reads m qs) = true.
Proof.
  unfold do_reads. induction qs as [ | q qs IH]; intros m E; cbn; [ exact E | ].
  apply IH. destruct q; cbn; try apply compute_d_cached.
  - unfold compute_call_greeks.
    destruct (call_greeks_cached_ m); [ exact E | cbn; apply compute_d_cached ].
  - unfold compute_put_greeks.
    destruct (put_greeks_cached_ m); [ exact E | cbn; apply compute_d_cached ].
Qed.

Lemma compute_d_once (m : BlackScholesModel T) :
  d_cached_ m = true -> compute_d m = m.
Proof. intros E. unfold compute_d. now rewrite E. Qed.

(** The object the constructor builds when validation passes. *)
Definition fresh (info : BlackScholesCreateInfo T) : BlackScholesModel T :=
  {| S_ := spot_price info; K_ := strike_price info;
     r_ := risk_free_rate info; sigma_ := volatility info;
     T_ := time_to_maturity info;
     d1_ := 0; d2_ := 0; d_cached_ := false;
     call_greeks_ := Greeks_default; put_greeks_ := Greeks_default;
     call_greeks_cached_ := false; put_greeks_cached_ := false |}.

Lemma ctor_of_validate (info : BlackScholesCreateInfo T) :
  validate info = inr tt -> BlackScholesModel_ctor info = inr (fresh info).
Proof. intros E. unfold BlackScholesModel_ctor. now rewrite E. Qed.

(** C2: on an object built from validated parameters, after any reads,
    [call_price()] returns [S * Phi(d1) - K * exp(-r * tau) * Phi(d2)] with
    [d1], [d2] the formulas over the stored parameters ([spec_d1],
    [spec_d2]); [call_price()] leaves them cached; once cached,
    [compute_d] changes nothing, and every later read finds the same
    [d1], [d2]. *)
Theorem call_price_formula (info : BlackScholesCreateInfo T)
  (m : BlackScholesModel T) (qs qs' : list read) :
  BlackScholesModel_ctor info = inr m ->
  let m1 := do_reads m qs in
  let m2 := snd (call_price m1) in
  let m3 := do_reads m2 qs' in
  fst (call_price m1) = spec_call_price info /\
  (d_cached_ m2 = true /\ d1_ m2 = spec_d1 info /\ d2_ m2 = spec_d2 info) /\
  (d_cached_ m3 = true /\ d1_ m3 = spec_d1 info /\ d2_ m3 = spec_d2 info /\
   compute_d m3 = m3) /\
  fst (call_price m3) = spec_call_price info.
Proof.
  intros E m1 m2 m3.
  pose proof (@reachable_consistent info m qs E) as C1. fold m1 in C1.
  destruct (call_price_consistent C1) as (Hv & C2 & Hc2). fold m2 in C2, Hc2.
  pose proof (@do_reads_consistent info qs' _ C2) as C3. fold m3 in C3.
  pose proof (@do_reads_d_cached qs' _ Hc2) as Hc3. fold m3 in Hc3.
  destruct (cons_d C2 Hc2) as [H21 H22].
  destruct (cons_d C3 Hc3) as [H31 H32].
  repeat split; auto using compute_d_once.
  apply (call_price_consistent C3).
Qed.

(** C4: on an object built from validated parameters, after any reads,
    [call_greeks()] and [put_greeks()] return the records of formulas
    [spec_call_greeks] and [spec_put_greeks]; the put's gamma and vega are
    the call's. *)
Theorem greeks_formulas (info : BlackScholesCreateInfo T)
  (m : BlackScholesModel T) (qs qs' : list read) :
  BlackScholesModel_ctor info = inr m ->
  let cg := fst (call_greeks (do_reads m qs)) in
  let pg := fst (put_greeks (do_reads m qs')) in
  cg = spec_call_greeks info /\
  pg = spec_put_greeks info /\
  gamma pg = gamma cg /\
  vega pg = vega cg.
Proof.
  intros E cg pg.
  assert (Hc : cg = spec_call_greeks info)
    by (apply call_greeks_consistent, reachable_consistent, E).
  assert (Hp : pg = spec_put_greeks info)
    by (apply put_greeks_consistent, reachable_consistent, E).
  rewrite Hc, Hp. repeat split; reflexivity.
Qed.

(** The constructor fails exactly when one of the four tests of
    [validate] holds; the rate is not read. *)
Lemma ctor_fails_iff_tests (info : BlackScholesCreateInfo T) :
  (exists e, BlackScholesModel_ctor info = inl e) <->
  (spot_price info <=? 0) = true \/ (strike_price info <=? 0) = true \/
  (volatility info <? 0) = true \/ (time_to_maturity info <=? 0) = true.
Proof.
  unfold BlackScholesModel_ctor, validate.
  destruct (spot_price info <=? 0); [ split; eauto | ].
  destruct (strike_price info <=? 0); [ split; eauto | ].
  destruct (volatility info <? 0); [ split; eauto | ].
  destruct (time_to_maturity info <=? 0); [ split; eauto | ].
  split; [ intros [e E]; discriminate | ].
  intros [E | [E | [E | E]]]; discriminate.
Qed.

Definition with_rate (info : BlackScholesCreateInfo T) (r : T)
  : BlackScholesCreateInfo T :=
  {| spot_price := spot_price info; strike_price := strike_price info;
     risk_free_rate := r; volatility := volatility info;
     time_to_maturity := time_to_maturity info |}.

Lemma validate_ignores_rate (info : BlackScholesCreateInfo T) (r : T) :
  validate (with_rate info r) = validate info.
Proof. reflexivity. Qed.
End Generic.
End model_facts.


(** ** The Black-Scholes model over the reals *)

Module model_real.
Import real model model_facts.
Local Open Scope R_scope.

(** The reference contract of the demos. *)
Definition reference_info : BlackScholesCreateInfo R :=
  {| spot_price := 100; strike_price := 100; risk_free_rate := 0.05;
     volatility := 0.20; time_to_maturity := 1 |}.

Lemma ctor_fails_iff_real (info : BlackScholesCreateInfo R) :
  (exists e, BlackScholesModel_ctor info = inl e) <->
  spot_price info <= 0 \/ strike_price info <= 0 \/
  volatility info < 0 \/ time_to_maturity info <= 0.
Proof.
  rewrite ctor_fails_iff_tests. to_R.
  now rewrite !Rleb_true, Rltb_true.
Qed.

Lemma ctor_succeeds_real (info : BlackScholesCreateInfo R) :
  0 < spot_price info -> 0 < strike_price info ->
  0 <= volatility info -> 0 < time_to_maturity info ->
  BlackScholesModel_ctor info = inr (fresh info).
Proof.
  intros HS HK Hv HT. apply ctor_of_validate. unfold validate. to_R.
  replace (Rleb (spot_price info) 0) with false
    by (symmetry; apply Rleb_false; lra).
  replace (Rleb (strike_price info) 0) with false
    by (symmetry; apply Rleb_false; lra).
  replace (Rltb (volatility info) 0) with false
    by (symmetry; apply Rltb_false; lra).
  replace (Rleb (time_to_maturity info) 0) with false
    by (symmetry; apply Rleb_false; lra).
  reflexivity.
Qed.

Lemma ctor_reference :
  BlackScholesModel_ctor reference_info = inr (fresh reference_info).
Proof. apply ctor_succeeds_real; cbn; lra. Qed.

(** C5: the constructor throws [invalid_argument] exactly when [S <= 0],
    [K <= 0], [sigma < 0] or [tau <= 0]; the rate plays no part in the
    outcome; and on a constructed object every sequence of reads runs to
    its end (the reads are total functions, the source has no [throw] in
    them) and leaves the parameters as constructed. *)
Theorem ctor_fails_iff (info : BlackScholesCreateInfo R) :
  ((exists e, BlackScholesModel_ctor info = inl e) <->
   spot_price info <= 0 \/ strike_price info <= 0 \/
   volatility info < 0 \/ time_to_maturity info <= 0) /\
  (forall r : R,
     (exists e, BlackScholesModel_ctor (with_rate info r) = inl e) <->
     (exists e, BlackScholesModel_ctor info = inl e)) /\
  (forall m qs, BlackScholesModel_ctor info = inr m ->
     exists c p cg pg,
       call_price (do_reads m qs) = (c, compute_d (do_reads m qs)) /\
       fst (put_price (do_reads m qs)) = p /\
       fst (call_greeks (do_reads m qs)) = cg /\
       fst (put_greeks (do_reads m qs)) = pg /\
       consistent info (do_reads m qs)).
Proof.
  split; [ apply ctor_fails_iff_real | ].
  split.
  - intros r. rewrite !ctor_fails_iff_real. cbn. tauto.
  - intros m qs E. do 4 eexists.
    repeat split; try reflexivity; now apply reachable_consistent.
Qed.

Lemma ctor_fails_iff_witness :
  exists c p cg pg,
    call_price (do_reads (fresh reference_info) [read_put_price])
    = (c, compute_d (do_reads (fresh reference_info) [read_put_price])) /\
    fst (put_price (do_reads (fresh reference_info) [read_put_price])) = p /\
    fst (call_greeks (do_reads (fresh reference_info) [read_put_price])) = cg /\
    fst (put_greeks (do_reads (fresh reference_info) [read_put_price])) = pg /\
    consistent reference_info
      (do_reads (fresh reference_info) [read_put_price]).
Proof.
  exact (proj2 (proj2 (ctor_fails_iff reference_info))
           (fresh reference_info) [read_put_price] ctor_reference).
Defined.

(** C3: on an object built from validated parameters, whatever was read
    before, [put_price()] is [call_price() - S + K * exp(-r * tau)],
    evaluated in the arithmetic of the numeric type, for every numeric type
    (so for [double]): the parity formula, not the direct one.  Over the
    reals with positive volatility, where every quotient, logarithm and
    root of [compute_d] is defined, [call_price() - put_price()] is exactly
    [S - K * exp(-r * tau)].  No tolerance is claimed for [double]: the
    module [parity_demo] below shows that [1e-10] is not one. *)
Theorem put_call_parity :
  (forall (T : Type) (A : Arithmetic T) (info : BlackScholesCreateInfo T)
          (m : BlackScholesModel T) (qs qs' : list read),
     BlackScholesModel_ctor info = inr m ->
     fst (put_price (do_reads m qs'))
     = (fst (call_price (do_reads m qs)) - spot_price info
        + strike_price info
          * std_exp (- risk_free_rate info * time_to_maturity info))%A) /\
  (forall (info : BlackScholesCreateInfo R) (m : BlackScholesModel R)
          (qs qs' : list read),
     BlackScholesModel_ctor info = inr m ->
     0 < volatility info ->
     let S := spot_price info in
     let K := strike_price info in
     let r := risk_free_rate info in
     let tau := time_to_maturity info in
     let C := fst (call_price (do_reads m qs)) in
     let P := fst (put_price (do_reads m qs')) in
     0 < volatility info * sqrt tau /\
     P = C - S + K * exp (- r * tau) /\
     C - P = S - K * exp (- r * tau)).
Proof.
  assert (G : forall (T : Type) (A : Arithmetic T)
                (info : BlackScholesCreateInfo T) (m : BlackScholesModel T)
                (qs qs' : list read),
             BlackScholesModel_ctor info = inr m ->
             fst (put_price (do_reads m qs'))
             = (fst (call_price (do_reads m qs)) - spot_price info
                + strike_price info
                  * std_exp (- risk_free_rate info
                             * time_to_maturity info))%A).
  { intros T A info m qs qs' E.
    pose proof (@reachable_consistent _ _ info m qs E) as C1.
    pose proof (@reachable_consistent _ _ info m qs' E) as C2.
    destruct (call_price_consistent C1) as (HC & _ & _).
    destruct (call_price_consistent C2) as (HC' & _ & _).
    destruct (put_price_consistent C2) as (_ & HP).
    rewrite HP, HC, HC'. reflexivity. }
  split; [ exact G | ].
  intros info m qs qs' E Hs S K r tau C P.
  pose proof (G R _ info m qs qs' E) as HP. to_R.
  fold S K r tau C P in HP.
  split; [ | split; [ exact HP | rewrite HP; ring ] ].
  assert (Ht : 0 < tau).
  { apply Rnot_le_lt. intros Hle.
    assert (F : exists e, BlackScholesModel_ctor info = inl e)
      by (apply ctor_fails_iff_real; tauto).
    destruct F as [e F]. rewrite E in F. discriminate. }
  apply Rmult_lt_0_compat; [ exact Hs | now apply sqrt_lt_R0 ].
Qed.

Lemma put_call_parity_witness :
  fst (call_price (do_reads (fresh reference_info) [read_call_greeks]))
  - fst (put_price (do_reads (fresh reference_info) [read_put_price]))
  = 100 - 100 * exp (- (0.05) * 1).
Proof.
  refine (proj2 (proj2
            (proj2 put_call_parity reference_info (fresh reference_info)
               [read_call_greeks] [read_put_price] ctor_reference _))).
  cbn. lra.
Defined.

Lemma call_price_formula_witness :
  fst (call_price (do_reads (fresh reference_info) [read_put_greeks]))
  = spec_call_price reference_info.
Proof.
  exact (proj1 (call_price_formula reference_info
                  [read_put_greeks] [] ctor_reference)).
Defined.

Lemma greeks_formulas_witness :
  fst (call_greeks (do_reads (fresh reference_info) [read_call_price]))
  = spec_call_greeks reference_info.
Proof.
  exact (proj1 (greeks_formulas reference_info
                  [read_call_price] [] ctor_reference)).
Defined.
End model_real.


(** ** The Monte Carlo pricer, for every numeric type and random source *)

Module method_facts.
Import method.

Section Generic.
Context {T : Type} `{Arithmetic T}.
Variable Gen : Type.
Variable seed_gen : Z -> Gen.
Variable normal_draw : Gen -> T * Gen.
Local Open Scope arith_scope.

(** The first [n] variates of the source from state [g], in the order of
    generation, and the state after them. *)
Fixpoint draws (n : nat) (g : Gen) : list T * Gen :=
  match n with
  | O => ([], g)
  | S n' =>
      let (z, g1) := normal_draw g in
      let (zs, g2) := draws n' g1 in
      (z :: zs, g2)
  end.

Lemma draws_length (n : nat) : forall g, length (fst (draws n g)) = n.
Proof.
  induction n as [ | n IH]; intros g; cbn; [ reflexivity | ].
  destruct (normal_draw g) as [z g1].
  specialize (IH g1). destruct (draws n g1) as [zs g2]. cbn in *. now rewrite IH.
Qed.

(** The constructor accepts every configuration. *)
Lemma MonteCarloPricer_ctor_accepts (config : MonteCarloCreateInfo) :
  MonteCarloPricer_ctor seed_gen config
  = inr {| config_ := config; gen_ := seed_gen (seed config) |}.
Proof. reflexivity. Qed.

Lemma vector_set_app {A : Type} (pre post : list A) (old x : A) :
  vector_set (pre ++ old :: post) (length pre) x = pre ++ x :: post.
Proof. induction pre as [ | y pre IH]; cbn; [ reflexivity | now rewrite IH ]. Qed.

Lemma std_transform_full {A B : Type} (f : A -> B) (src : list A)
  (dst : list B) :
  length dst = length src -> std_transform f src dst = map f src.
Proof.
  intros E. unfold std_transform.
  rewrite skipn_all2 by lia. apply app_nil_r.
Qed.

Section Pricing.
Variables S0 K r sigma time : T.

Let call_payoff := call_payoff K.
Let put_payoff := put_payoff K.
Let terminal_price := terminal_price S0 r sigma time.

(** One simulated path is the pricing function at the next variate. *)
Lemma simulate_gbm_terminal_draw (g : Gen) :
  simulate_gbm_terminal normal_draw g S0 r sigma time =
  (terminal_price (fst (normal_draw g)), snd (normal_draw g)).
Proof.
  unfold simulate_gbm_terminal. destruct (normal_draw g) as [z g1]. reflexivity.
Qed.

Lemma sequential_loop_draws (n : nat) : forall g calls puts,
  sequential_loop normal_draw S0 K r sigma time n g calls puts =
  (calls ++ map call_payoff (map terminal_price (fst (draws n g))),
   puts ++ map put_payoff (map terminal_price (fst (draws n g))),
   snd (draws n g)).
Proof.
  induction n as [ | n IH]; intros g calls puts; cbn [sequential_loop draws].
  - cbn. now rewrite !app_nil_r.
  - rewrite simulate_gbm_terminal_draw.
    destruct (normal_draw g) as [z g1]. cbn [fst snd].
    rewrite IH. destruct (draws n g1) as [zs g2]. cbn [fst snd map].
    now rewrite <- !app_assoc.
Qed.

Lemma draw_loop_draws (n : nat) : forall g pre,
  draw_loop normal_draw n (length pre) g (pre ++ repeat 0 n) =
  (pre ++ fst (draws n g), snd (draws n g)).
Proof.
  induction n as [ | n IH]; intros g pre; cbn [draw_loop draws repeat].
  - reflexivity.
  - destruct (normal_draw g) as [z g1].
    rewrite vector_set_app.
    replace (pre ++ z :: repeat 0 n) with ((pre ++ [z]) ++ repeat 0 n)
      by (rewrite <- app_assoc; reflexivity).
    replace (S (length pre)) with (length (pre ++ [z]))
      by (rewrite length_app; cbn; lia).
    rewrite IH. destruct (draws n g1) as [zs g2]. cbn [fst snd].
    now rewrite <- app_assoc.
Qed.

(** The payoff vectors both paths build from the generator state [g]. *)
Definition paired_payoffs (n : Z) (g : Gen) : list T * list T * Gen :=
  let STs := map terminal_price (fst (draws (Z.to_nat n) g)) in
  (map call_payoff STs, map put_payoff STs, snd (draws (Z.to_nat n) g)).

Lemma sequential_payoffs_paired (n : Z) (g : Gen) :
  sequential_payoffs normal_draw S0 K r sigma time n g = paired_payoffs n g.
Proof. unfold sequential_payoffs. now rewrite sequential_loop_draws. Qed.

Lemma parallel_payoffs_paired (n : Z) (g : Gen) :
  parallel_payoffs normal_draw S0 K r sigma time n g = paired_payoffs n g.
Proof.
  unfold parallel_payoffs, paired_payoffs.
  pose proof (draw_loop_draws (Z.to_nat n) g []) as E. cbn [length app] in E.
  rewrite E. pose proof (draws_length (Z.to_nat n) g) as L.
  destruct (draws (Z.to_nat n) g) as [zs g']. cbn [fst snd] in *.
  rewrite (std_transform_full (method.terminal_price S0 r sigma time) zs)
    by (now rewrite repeat_length).
  rewrite !std_transform_full by (now rewrite length_map, repeat_length).
  reflexivity.
Qed.

Lemma price_paired (this : MonteCarloPricer Gen) :
  price_european_call_and_put normal_draw S0 K r sigma time this =
  statistics_of r time
    (paired_payoffs (num_simulations (config_ this)) (gen_ this)) this.
Proof.
  unfold price_european_call_and_put, price_european_call_and_put_parallel,
    price_european_call_and_put_sequential.
  rewrite sequential_payoffs_paired, parallel_payoffs_paired.
  destruct (policy (config_ this)); try reflexivity.
  destruct (10000 <=? num_simulations (config_ this))%Z; reflexivity.
Qed.

(** C6: in one call of [price_european_call_and_put], whatever the policy,
    and in each of the two paths, the call payoffs are [max(ST - K, 0)] and
    the put payoffs [max(K - ST, 0)] over one and the same list [STs] of
    terminal prices, index by index; [STs] has [N] elements, the pricing
    function applied to the first [N] variates drawn from the generator. *)
Theorem payoffs_share_terminal_prices (this : MonteCarloPricer Gen) :
  let n := num_simulations (config_ this) in
  let zs := fst (draws (Z.to_nat n) (gen_ this)) in
  let STs := map (method.terminal_price S0 r sigma time) zs in
  let seq := sequential_payoffs normal_draw S0 K r sigma time n (gen_ this) in
  let par := parallel_payoffs normal_draw S0 K r sigma time n (gen_ this) in
  length STs = Z.to_nat n /\
  (forall i,
     nth_error (fst (fst seq)) i
     = option_map (fun ST => std_max (ST - K) 0) (nth_error STs i) /\
     nth_error (snd (fst seq)) i
     = option_map (fun ST => std_max (K - ST) 0) (nth_error STs i)) /\
  (forall i,
     nth_error (fst (fst par)) i
     = option_map (fun ST => std_max (ST - K) 0) (nth_error STs i) /\
     nth_error (snd (fst par)) i
     = option_map (fun ST => std_max (K - ST) 0) (nth_error STs i)) /\
  price_european_call_and_put normal_draw S0 K r sigma time this
  = statistics_of r time
      (map (fun ST => std_max (ST - K) 0) STs,
       map (fun ST => std_max (K - ST) 0) STs,
       snd (draws (Z.to_nat n) (gen_ this))) this.
Proof.
  intros n zs STs seq par. subst seq par.
  rewrite sequential_payoffs_paired, parallel_payoffs_paired, price_paired.
  unfold paired_payoffs. fold n. fold zs. fold STs. cbn [fst snd].
  split; [ unfold STs, zs; now rewrite length_map, draws_length | ].
  split; [ intros i; split; apply nth_error_map | ].
  split; [ intros i; split; apply nth_error_map | ].
  reflexivity.
Qed.

(** C7: two engines built from configurations with the same seed and the
    same trial count, one sequential and one parallel, consume the same
    [N] variates from the same initial state, build the same payoff vectors
    by the same functions, return equal call and put results and leave the
    generator in the same state. *)
Theorem sequential_parallel_agree (n seed : Z) :
  let config pol :=
    {| num_simulations := n; seed := seed; policy := pol |} in
  let engine pol :=
    {| config_ := config pol; gen_ := seed_gen seed |} in
  let seq :=
    price_european_call_and_put normal_draw S0 K r sigma time
      (engine Sequential) in
  let par :=
    price_european_call_and_put normal_draw S0 K r sigma time
      (engine Parallel) in
  (MonteCarloPricer_ctor seed_gen (config Sequential)
   = inr (engine Sequential) /\
   MonteCarloPricer_ctor seed_gen (config Parallel)
   = inr (engine Parallel)) /\
  (sequential_payoffs normal_draw S0 K r sigma time n (seed_gen seed)
   = paired_payoffs n (seed_gen seed) /\
   parallel_payoffs normal_draw S0 K r sigma time n (seed_gen seed)
   = paired_payoffs n (seed_gen seed)) /\
  ((forall g,
      simulate_gbm_terminal normal_draw g S0 r sigma time
      = (S0 * std_exp ((r - sigma * sigma / 2) * time
                       + sigma * std_sqrt time * fst (normal_draw g)),
         snd (normal_draw g))) /\
   (forall z,
      method.terminal_price S0 r sigma time z
      = S0 * std_exp ((r - sigma * sigma / 2) * time
                      + sigma * std_sqrt time * z))) /\
  fst seq = fst par /\
  (gen_ (snd seq) = snd (draws (Z.to_nat n) (seed_gen seed)) /\
   gen_ (snd par) = snd (draws (Z.to_nat n) (seed_gen seed))).
Proof.
  intros config engine seq par. subst seq par.
  rewrite !price_paired. cbn [config_ gen_ engine config num_simulations].
  split; [ split; reflexivity | ].
  split; [ | split; [ split; [ apply simulate_gbm_terminal_draw
                             | reflexivity ] | ] ].
  - split; [ apply sequential_payoffs_paired | apply parallel_payoffs_paired ].
  - unfold statistics_of, paired_payoffs. cbn.
    repeat split; reflexivity.
Qed.
End Pricing.
End Generic.
End method_facts.


(** ** The statistics reduction over the reals *)

Module method_real.
Import real method.
Local Open Scope R_scope.

(** The quantities of the specification, for a sample [l]. *)
Definition spec_sum (l : list R) : R := fold_right Rplus 0 l.

Definition spec_mean (l : list R) : R := spec_sum l / INR (length l).

Definition spec_variance (l : list R) : R :=
  spec_sum (map (fun payoff => (payoff - spec_mean l) ^ 2) l)
  / (INR (length l) - 1).

Definition spec_standard_error (l : list R) : R :=
  sqrt (spec_variance l / INR (length l)).

Lemma accumulate_sum (l : list R) : forall acc,
  fold_left (fun acc payoff => acc + payoff) l acc = acc + spec_sum l.
Proof.
  induction l as [ | x l IH]; intros acc; cbn.
  - lra.
  - rewrite IH. unfold spec_sum. lra.
Qed.

Lemma accumulate_squares (mean : R) (l : list R) : forall acc,
  fold_left (fun variance payoff =>
               variance + (payoff - mean) * (payoff - mean)) l acc
  = acc + spec_sum (map (fun payoff => (payoff - mean) ^ 2) l).
Proof.
  induction l as [ | x l IH]; intros acc; cbn [fold_left map].
  - cbn. lra.
  - rewrite IH. unfold spec_sum. cbn [fold_right]. ring.
Qed.

Lemma vector_size_small (l : list R) :
  (Z.of_nat (length l) < size_t_modulus)%Z ->
  vector_size l = Z.of_nat (length l).
Proof. intros Hs. unfold vector_size. apply Z.mod_small. lia. Qed.

(** C8: for a sample of [N >= 2] payoffs (a vector, so [N] is a [size_t])
    the reduction reports [discount * mean] and [discount * standard
    error], with mean [sum / N], variance [sum of (payoff - mean)^2 /
    (N - 1)] and standard error [sqrt (variance / N)]. *)
Theorem statistics_reduction (payoffs : list R) (discount : R) :
  (2 <= length payoffs)%nat ->
  (Z.of_nat (length payoffs) < size_t_modulus)%Z ->
  let N := INR (length payoffs) in
  let mean := spec_sum payoffs / N in
  let variance :=
    spec_sum (map (fun payoff => (payoff - mean) ^ 2) payoffs) / (N - 1) in
  let std_error := sqrt (variance / N) in
  price (compute_statistics payoffs discount) = discount * mean /\
  standard_error (compute_statistics payoffs discount) = discount * std_error /\
  mean = spec_mean payoffs /\
  variance = spec_variance payoffs /\
  std_error = spec_standard_error payoffs.
Proof.
  intros H2 Hs N mean variance std_error.
  unfold compute_statistics. cbn [price standard_error].
  rewrite (vector_size_small payoffs Hs).
  unfold size_t_sub. rewrite Z.mod_small by (unfold size_t_modulus in *; lia).
  to_R.
  rewrite accumulate_sum, accumulate_squares.
  rewrite minus_IZR, <- INR_IZR_INZ. fold N.
  rewrite !Rplus_0_l. fold mean. fold variance. fold std_error.
  repeat split; reflexivity.
Qed.

Lemma statistics_reduction_witness :
  price (compute_statistics [1; 3] 1) = 1 * (spec_sum [1; 3] / INR 2).
Proof.
  refine (proj1 (statistics_reduction [1; 3] 1 _ _)).
  - cbn. lia.
  - reflexivity.
Defined.
End method_real.


(** ** Binary64: division by zero and what follows from it *)

Module binary64_facts.
Import binary64.

(** Zero or NaN: what a product with a zero factor can be. *)
Definition zero_or_nan (x : spec_float) : bool := is_zero x || is_nan x.

Lemma mul_zero_l (z x : spec_float) :
  is_zero z = true ->
  is_zero (SFmul prec emax z x) = is_finite x /\
  zero_or_nan (SFmul prec emax z x) = true.
Proof. destruct z; try discriminate. destruct x; split; reflexivity. Qed.

Lemma mul_zero_r (x z : spec_float) :
  is_zero z = true -> zero_or_nan (SFmul prec emax x z) = true.
Proof. destruct z; try discriminate. destruct x; reflexivity. Qed.

Lemma mul_zero_or_nan_l (z x : spec_float) :
  zero_or_nan z = true -> zero_or_nan (SFmul prec emax z x) = true.
Proof. destruct z; try discriminate; destruct x; reflexivity. Qed.

Lemma div_zero_or_nan (x z : spec_float) :
  zero_or_nan z = true ->
  is_finite (SFdiv prec emax x z) = false /\
  is_nan (SFdiv prec emax x z) = is_nan z || is_zero x || is_nan x.
Proof. destruct z; try discriminate; destruct x; split; reflexivity. Qed.

Lemma sub_zero_or_nan (x z : spec_float) :
  is_finite x = false -> zero_or_nan z = true ->
  is_finite (SFsub prec emax x z) = false.
Proof.
  destruct x as [ | sx | | ]; try discriminate;
    destruct z as [ | sz | | ]; try discriminate; reflexivity.
Qed.

Lemma div_not_finite (x y : spec_float) :
  is_finite x = false -> is_finite y = true ->
  is_finite (SFdiv prec emax x y) = false.
Proof.
  destruct x as [ | sx | | ]; try discriminate;
    destruct y as [ | sy | | ]; try discriminate; reflexivity.
Qed.

Lemma sqrt_not_finite (x : spec_float) :
  is_finite x = false -> is_finite (SFsqrt prec emax x) = false.
Proof. destruct x as [ | [ | ] | | ]; try discriminate; reflexivity. Qed.

Lemma mul_not_finite_r (x y : spec_float) :
  is_finite y = false -> is_finite (SFmul prec emax x y) = false.
Proof.
  destruct y as [ | sy | | ]; try discriminate; destruct x; reflexivity.
Qed.

Lemma ltb_zero (z : spec_float) :
  is_zero z = true -> SFltb z (of_Z 0) = false.
Proof. destruct z; try discriminate. reflexivity. Qed.

Section Libm.
Variables libm_exp libm_log : spec_float -> spec_float.

#[local] Instance double : Arithmetic spec_float :=
  binary64_Arithmetic libm_exp libm_log.

Ltac to_double :=
  cbn [of_int of_decimal op_add op_sub op_mul op_div op_neg op_lt op_le
       std_sqrt std_exp std_log inv_sqrtpi_v sqrt2_v double
       binary64_Arithmetic] in *.

Local Open Scope arith_scope.

(** *** The model at zero volatility *)

Section ZeroVolatility.
Import model model_facts.
Variable info : BlackScholesCreateInfo spec_float.
Let S := spot_price info.
Let K := strike_price info.
Let r := risk_free_rate info.
Let sigma := volatility info.
Let tau := time_to_maturity info.

(** The divisor and the numerator of [d1] in [compute_d], and the divisor
    of gamma. *)
Definition d1_divisor : spec_float := sigma * std_sqrt tau.
Definition d1_numerator : spec_float :=
  std_log (S / K) + (r + sigma * sigma / 2) * tau.
Definition gamma_divisor : spec_float := S * sigma * std_sqrt tau.

Hypothesis sigma_zero : is_zero sigma = true.

Lemma d1_divisor_zero :
  is_zero d1_divisor = is_finite (std_sqrt tau) /\
  zero_or_nan d1_divisor = true.
Proof. unfold d1_divisor. to_double. now apply mul_zero_l. Qed.

Lemma gamma_divisor_zero : zero_or_nan gamma_divisor = true.
Proof.
  unfold gamma_divisor. to_double.
  apply mul_zero_or_nan_l. now apply mul_zero_r.
Qed.

Lemma spec_d1_not_finite :
  spec_d1 info = d1_numerator / d1_divisor /\
  is_finite (spec_d1 info) = false /\
  is_nan (spec_d1 info)
  = is_nan d1_divisor || is_zero d1_numerator || is_nan d1_numerator.
Proof.
  split; [ reflexivity | ].
  change (spec_d1 info) with (SFdiv prec emax d1_numerator d1_divisor).
  apply div_zero_or_nan, d1_divisor_zero.
Qed.

Lemma spec_d2_not_finite :
  spec_d2 info = spec_d1 info - d1_divisor /\
  is_finite (spec_d2 info) = false.
Proof.
  split; [ reflexivity | ].
  change (spec_d2 info) with (SFsub prec emax (spec_d1 info) d1_divisor).
  apply sub_zero_or_nan; [ apply spec_d1_not_finite | apply d1_divisor_zero ].
Qed.

Lemma spec_gamma_not_finite :
  gamma (spec_call_greeks info)
  = math.normal_pdf (spec_d1 info) / gamma_divisor /\
  gamma (spec_put_greeks info) = gamma (spec_call_greeks info) /\
  is_finite (gamma (spec_call_greeks info)) = false.
Proof.
  split; [ reflexivity | ]. split; [ reflexivity | ].
  change (gamma (spec_call_greeks info))
    with (SFdiv prec emax (math.normal_pdf (spec_d1 info)) gamma_divisor).
  apply div_zero_or_nan, gamma_divisor_zero.
Qed.
End ZeroVolatility.

(** C10: when the volatility is a zero, which [validate] lets through,
    [compute_d] divides by [sigma * sqrt(tau)], a zero (NaN only if
    [sqrt(tau)] is not finite); [d1] and [d2] are not finite, [d1] being
    NaN exactly when the divisor is NaN or the numerator is zero or NaN,
    and infinite otherwise; gamma divides by [S * sigma * sqrt(tau)], zero
    or NaN as well, and is not finite for the call and for the put; the
    reads return these values like any other. *)
Theorem zero_volatility_not_finite
  (info : model.BlackScholesCreateInfo spec_float)
  (m : model.BlackScholesModel spec_float) :
  model.BlackScholesModel_ctor info = inr m ->
  is_zero (model.volatility info) = true ->
  let m' := snd (model.call_price m) in
  let call_gamma := model.gamma (fst (model.call_greeks m)) in
  let put_gamma := model.gamma (fst (model.put_greeks m)) in
  (model.volatility info <? 0) = false /\
  (is_zero (d1_divisor info)
   = is_finite (std_sqrt (model.time_to_maturity info)) /\
   zero_or_nan (d1_divisor info) = true) /\
  (model.d1_ m' = d1_numerator info / d1_divisor info /\
   model.d2_ m' = model.d1_ m' - d1_divisor info) /\
  (is_finite (model.d1_ m') = false /\ is_finite (model.d2_ m') = false) /\
  is_nan (model.d1_ m')
  = is_nan (d1_divisor info) || is_zero (d1_numerator info)
    || is_nan (d1_numerator info) /\
  (zero_or_nan (gamma_divisor info) = true /\
   call_gamma = math.normal_pdf (model.d1_ m') / gamma_divisor info /\
   put_gamma = call_gamma) /\
  (is_finite call_gamma = false /\ is_finite put_gamma = false).
Proof.
  intros E Hz m' call_gamma put_gamma.
  pose proof (model_facts.ctor_consistent info E) as C.
  destruct (model_facts.call_price_consistent C) as (_ & C' & Hc).
  destruct (model_facts.cons_d C' Hc) as [H1 H2]. fold m' in H1, H2.
  assert (Hcg : call_gamma = model.gamma (model_facts.spec_call_greeks info))
    by (unfold call_gamma; now rewrite (model_facts.call_greeks_consistent C)).
  assert (Hpg : put_gamma = model.gamma (model_facts.spec_put_greeks info))
    by (unfold put_gamma; now rewrite (model_facts.put_greeks_consistent C)).
  destruct (spec_d1_not_finite info Hz) as (D1 & F1 & N1).
  destruct (spec_d2_not_finite info Hz) as (D2 & F2).
  destruct (spec_gamma_not_finite info Hz) as (G1 & G2 & G3).
  rewrite H1, H2, Hcg, Hpg, G2.
  split; [ to_double; now apply ltb_zero | ].
  split; [ now apply d1_divisor_zero | ].
  split; [ split; assumption | ].
  split; [ split; assumption | ].
  split; [ assumption | ].
  split; [ | split; assumption ].
  split; [ now apply gamma_divisor_zero | ].
  split; [ assumption | reflexivity ].
Qed.

(** *** The statistics of a sample of fewer than two payoffs *)

Section SmallSample.
Import method method_facts.
Variable Gen : Type.
Variable seed_gen : Z -> Gen.
Variable normal_draw : Gen -> spec_float * Gen.

Lemma statistics_small (payoffs : list spec_float) (DF : spec_float) :
  (length payoffs < 2)%nat ->
  is_finite (standard_error (compute_statistics payoffs DF)) = false.
Proof.
  intros Hlen. destruct payoffs as [ | p [ | q l]]; [ | | cbn in Hlen; lia ].
  - unfold compute_statistics. cbn [standard_error fold_left].
    change (vector_size []) with 0%Z.
    change (size_t_sub 0 1) with 18446744073709551615%Z.
    to_double. apply mul_not_finite_r. reflexivity.
  - unfold compute_statistics. cbn [standard_error fold_left].
    change (vector_size [p]) with 1%Z.
    change (size_t_sub 1 1) with 0%Z.
    to_double.
    apply mul_not_finite_r, sqrt_not_finite, div_not_finite;
      [ | reflexivity ].
    apply div_zero_or_nan. reflexivity.
Qed.

Lemma paired_payoffs_length (S0 K r sigma time : spec_float) (n : Z)
  (g : Gen) :
  length (fst (fst (paired_payoffs normal_draw S0 K r sigma time n g)))
  = Z.to_nat n /\
  length (snd (fst (paired_payoffs normal_draw S0 K r sigma time n g)))
  = Z.to_nat n.
Proof.
  unfold paired_payoffs. cbn [fst snd].
  rewrite !length_map, draws_length. split; reflexivity.
Qed.

(** C1, amended: neither the configuration nor the constructor of the
    engine checks the trial count; a configuration with [N < 2] is
    accepted, the pricing call runs to its end under every policy, and the
    standard errors it reports for the call and for the put are not finite
    (NaN or infinite). *)
Theorem small_sample_accepted (config : MonteCarloCreateInfo)
  (S0 K r sigma time : spec_float) :
  (0 <= num_simulations config < 2)%Z ->
  let this := {| config_ := config; gen_ := seed_gen (seed config) |} in
  let result :=
    fst (price_european_call_and_put normal_draw S0 K r sigma time this) in
  MonteCarloPricer_ctor seed_gen config = inr this /\
  is_finite (standard_error (call result)) = false /\
  is_finite (standard_error (put result)) = false.
Proof.
  intros HN this result. split; [ reflexivity | ].
  unfold result. rewrite price_paired.
  pose proof (paired_payoffs_length S0 K r sigma time
                (num_simulations (config_ this)) (gen_ this)) as [Lc Lp].
  destruct (paired_payoffs normal_draw S0 K r sigma time
              (num_simulations (config_ this)) (gen_ this))
    as [[calls puts] g'].
  cbn [fst snd statistics_of call put] in *.
  split; apply statistics_small; cbn [config_ this] in *; lia.
Qed.
End SmallSample.

(** *** [normal_cdf] at zero, in binary64 *)

Section CdfAtZero.
(** The C library returns [1] for [exp(-0.0)]. *)
Hypothesis exp_zero : libm_exp (S754_zero true) = of_Z 1.

Lemma normal_pdf_zero (s : bool) :
  math.normal_pdf (S754_zero s) = S754_finite false 7186705221432912 (-54).
Proof.
  unfold math.normal_pdf. to_double.
  replace (SFdiv prec emax
             (SFmul prec emax (SFopp (S754_zero s)) (S754_zero s)) (of_Z 2))
    with (S754_zero true) by (destruct s; reflexivity).
  rewrite exp_zero. vm_compute. reflexivity.
Qed.

Lemma normal_cdf_zero (s : bool) :
  math.normal_cdf (S754_zero s) = S754_finite false 4503599632097552 (-53).
Proof.
  unfold math.normal_cdf. to_double.
  replace (SFltb (S754_zero s) (of_Z 0)) with false
    by (destruct s; reflexivity).
  unfold math.normal_cdf_tail. rewrite normal_pdf_zero.
  destruct s; vm_compute; reflexivity.
Qed.

(** In binary64 too the sum at zero is above [1 + 1e-10]: it is
    [0x1.0000000482110p+0], about [1 + 1.05e-9]. *)
Lemma normal_cdf_sum_zero_double :
  let sum := math.normal_cdf (of_Z 0) + math.normal_cdf (- of_Z 0) in
  sum = S754_finite false 4503599632097552 (-52) /\
  (of_decimal 10000000001 10 <? sum) = true.
Proof.
  cbv zeta. to_double.
  change (of_Z 0) with (S754_zero false). cbn [SFopp negb].
  rewrite !normal_cdf_zero. split; vm_compute; reflexivity.
Qed.
End CdfAtZero.
End Libm.

(** *** Concrete instances *)

(** The hypotheses of the two theorems above do not involve [exp] and
    [log]; where a concrete instance needs them, this function stands for
    both. *)
Definition no_libm (x : spec_float) : spec_float := S754_nan.

Definition zero_volatility_info : model.BlackScholesCreateInfo spec_float :=
  {| model.spot_price := of_Z 100;
     model.strike_price := of_Z 100;
     model.risk_free_rate := of_dec 5 2;
     model.volatility := of_Z 0;
     model.time_to_maturity := of_Z 1 |}.

Lemma zero_volatility_not_finite_witness :
  let A := double no_libm no_libm in
  is_finite
    (model.gamma
       (fst (model.call_greeks (H := A)
               (model_facts.fresh (H := A) zero_volatility_info))))
  = false.
Proof.
  refine (proj1 (proj2 (proj2 (proj2 (proj2 (proj2 (proj2
            (@zero_volatility_not_finite no_libm no_libm
               zero_volatility_info _ _ _)))))))).
  - vm_compute. reflexivity.
  - reflexivity.
Defined.

(** A generator that returns the same variate for ever. *)
Definition constant_draw (g : unit) : spec_float * unit := (of_Z 0, g).

Lemma small_sample_accepted_witness :
  let A := double no_libm no_libm in
  let config :=
    {| method.num_simulations := 1; method.seed := 42;
       method.policy := method.Auto |} in
  is_finite
    (method.standard_error
       (method.call
          (fst (method.price_european_call_and_put (H := A) constant_draw
                  (of_Z 100) (of_Z 100) (of_dec 5 2) (of_dec 2 1) (of_Z 1)
                  {| method.config_ := config; method.gen_ := tt |}))))
  = false.
Proof.
  refine (proj1 (proj2
            (@small_sample_accepted no_libm no_libm unit (fun _ => tt)
               constant_draw
               {| method.num_simulations := 1; method.seed := 42;
                  method.policy := method.Auto |}
               (of_Z 100) (of_Z 100) (of_dec 5 2) (of_dec 2 1) (of_Z 1) _))).
  cbn. lia.
Defined.

(** C1, as stated, fails: a configuration with one trial is accepted by
    the constructor, for every random source, and the pricing call on it
    returns a standard error that is not finite, for every source, every
    [exp] and [log] and every market input. *)
Lemma single_trial_accepted :
  let config :=
    {| method.num_simulations := 1; method.seed := 42;
       method.policy := method.Auto |} in
  (forall (Gen : Type) (seed_gen : Z -> Gen),
     method.MonteCarloPricer_ctor seed_gen config
     = inr {| method.config_ := config; method.gen_ := seed_gen 42%Z |}) /\
  (forall (libm_exp libm_log : spec_float -> spec_float) (Gen : Type)
          (seed_gen : Z -> Gen) (normal_draw : Gen -> spec_float * Gen)
          (S0 K r sigma time : spec_float),
     is_finite
       (method.standard_error
          (method.call
             (fst (method.price_european_call_and_put
                     (H := double libm_exp libm_log) normal_draw
                     S0 K r sigma time
                     {| method.config_ := config;
                        method.gen_ := seed_gen 42%Z |}))))
     = false).
Proof.
  split; [ reflexivity | ].
  intros libm_exp libm_log Gen seed_gen normal_draw S0 K r sigma time.
  rewrite (method_facts.price_paired (H := double libm_exp libm_log)).
  pose proof (@paired_payoffs_length libm_exp libm_log Gen normal_draw
                S0 K r sigma time 1%Z (seed_gen 42%Z)) as [Lc _].
  cbn [method.config_ method.gen_ method.num_simulations].
  destruct (method_facts.paired_payoffs (H := double libm_exp libm_log)
              normal_draw S0 K r sigma time 1%Z (seed_gen 42%Z))
    as [[calls puts] g'].
  cbn [fst snd method.statistics_of method.call] in *.
  apply statistics_small. rewrite Lc. cbn. lia.
Qed.
End binary64_facts.


(** * Further properties of the code *)

(** ** The normal density and distribution over the reals *)

Module math_real.
Import real normal_cdf_real.
Local Open Scope R_scope.

Lemma exp_neg_half_sqr_le_1 (x : R) : exp (- x * x / 2) <= 1.
Proof.
  rewrite <- exp_0.
  assert (Hx : - x * x / 2 <= 0) by nra.
  destruct Hx as [Hlt | Heq].
  - left. now apply exp_increasing.
  - rewrite Heq. right. reflexivity.
Qed.

Lemma normal_pdf_0 : math.normal_pdf (T := R) 0 = math.inv_sqrt_2pi.
Proof.
  unfold math.normal_pdf. to_R.
  replace (- 0 * 0 / 2) with 0 by lra. rewrite exp_0. ring.
Qed.

Lemma inv_sqrt_2pi_bounds : 0.39894 < math.inv_sqrt_2pi (T := R) < 0.39895.
Proof.
  pose proof inv_sqrt_2pi_pos as Hc.
  pose proof inv_sqrt_2pi_sqr as Hsq.
  pose proof PI_lower as Hlo.
  pose proof PI_upper as Hhi.
  set (c := math.inv_sqrt_2pi) in *.
  split; apply Rnot_le_lt; intros Hle.
  - assert (c * c <= 0.39894 * 0.39894) by nra. nra.
  - assert (0.39895 * 0.39895 <= c * c) by nra. nra.
Qed.

Lemma normal_pdf_pos_le (x : R) :
  0 < math.normal_pdf x <= math.inv_sqrt_2pi.
Proof.
  unfold math.normal_pdf. to_R.
  pose proof inv_sqrt_2pi_pos as Hc.
  pose proof (exp_pos (- x * x / 2)) as Hp.
  pose proof (exp_neg_half_sqr_le_1 x) as Hle.
  split; [ now apply Rmult_lt_0_compat | ].
  set (c := math.inv_sqrt_2pi) in *. nra.
Qed.

(** X1: the density is even, strictly positive, and nowhere above its
    value at the origin, [1 / sqrt(2 pi)], which is [0.39894...]. *)
Theorem normal_pdf_shape (x : R) :
  math.normal_pdf (- x) = math.normal_pdf x /\
  0 < math.normal_pdf x <= math.normal_pdf (T := R) 0 /\
  0.39894 < math.normal_pdf (T := R) 0 < 0.39895.
Proof.
  rewrite normal_pdf_0.
  pose proof inv_sqrt_2pi_pos as Hc.
  split; [ | split; [ | apply inv_sqrt_2pi_bounds ] ].
  - unfold math.normal_pdf. to_R. f_equal. f_equal. lra.
  - unfold math.normal_pdf. to_R.
    pose proof (exp_pos (- x * x / 2)) as Hp.
    pose proof (exp_neg_half_sqr_le_1 x) as Hle.
    split; [ now apply Rmult_lt_0_compat | ].
    set (c := math.inv_sqrt_2pi) in *. nra.
Qed.

(** *** The polynomial of [normal_cdf] on the unit interval *)

Definition horner (t : R) : R :=
  t * (0.319381530 + t * (-0.356563782 + t * (1.781477937
       + t * (-1.821255978 + t * 1.330274429)))).

Lemma horner_inner (t : R) :
  1.15 <= 1.781477937 + t * (-1.821255978 + t * 1.330274429).
Proof.
  pose proof (Rle_0_sqr (t - 0.6845)) as Hs. unfold Rsqr in Hs. nra.
Qed.

Lemma horner_pos (t : R) : 0 < t -> 0 < horner t.
Proof.
  intros Ht. unfold horner. apply Rmult_lt_0_compat; [ exact Ht | ].
  pose proof (horner_inner t) as Hi.
  set (u := 1.781477937 + t * (-1.821255978 + t * 1.330274429)) in *.
  assert (H1 : t * t * 1.15 <= t * (t * u)) by nra.
  pose proof (Rle_0_sqr (t - 0.155)) as Hs. unfold Rsqr in Hs.
  nra.
Qed.

Lemma horner_le_1 (t : R) : 0 <= t <= 1 -> horner t <= poly_at_1.
Proof.
  intros [H0 H1]. unfold poly_at_1.
  assert (E : 1.253314136 - horner t
              = (1 - t) * (1.253314136 + 0.933932606 * t
                           + 1.290496388 * (t * t)
                           - 0.490981549 * (t * t * t)
                           + 1.330274429 * (t * t * t * t)))
    by (unfold horner; nra).
  assert (H2 : 0 <= t * t <= 1) by nra.
  assert (H3 : 0 <= t * t * t <= 1) by nra.
  assert (H4 : 0 <= t * t * t * t) by nra.
  assert (Hr : 0 <= 1.253314136 + 0.933932606 * t + 1.290496388 * (t * t)
                    - 0.490981549 * (t * t * t)
                    + 1.330274429 * (t * t * t * t)) by nra.
  assert (Hp : 0 <= 1.253314136 - horner t)
    by (rewrite E; apply Rmult_le_pos; lra).
  lra.
Qed.

Lemma normal_cdf_tail_horner (x : R) :
  math.normal_cdf_tail x
  = 1 - math.normal_pdf x * horner (1 / (1 + 0.2316419 * x)).
Proof.
  unfold math.normal_cdf_tail, horner.
  unfold math.a1, math.a2, math.a3, math.a4, math.a5, math.p. to_R.
  replace (2316419 / 10 ^ 7) with 0.2316419 by lra.
  replace (319381530 / 10 ^ 9) with 0.319381530 by lra.
  replace (-356563782 / 10 ^ 9) with (-0.356563782) by lra.
  replace (1781477937 / 10 ^ 9) with 1.781477937 by lra.
  replace (-1821255978 / 10 ^ 9) with (-1.821255978) by lra.
  replace (1330274429 / 10 ^ 9) with 1.330274429 by lra.
  reflexivity.
Qed.

Lemma normal_cdf_tail_range (x : R) :
  0 <= x -> 1 / 2 < math.normal_cdf_tail x < 1.
Proof.
  intros Hx. rewrite normal_cdf_tail_horner.
  assert (Hd : 1 <= 1 + 0.2316419 * x) by nra.
  set (t := 1 / (1 + 0.2316419 * x)).
  assert (Ht : 0 < t <= 1).
  { unfold t. split.
    - apply Rdiv_lt_0_compat; lra.
    - unfold Rdiv. rewrite Rmult_1_l. rewrite <- Rinv_1 at 2.
      apply Rinv_le_contravar; lra. }
  pose proof (horner_pos (proj1 Ht)) as Hh0.
  assert (Hh1 : horner t <= poly_at_1) by (apply horner_le_1; lra).
  destruct (normal_pdf_pos_le x) as [Hp0 Hp1].
  pose proof pdf_poly_bounds as [_ Hb].
  pose proof inv_sqrt_2pi_pos as Hc.
  set (c := math.inv_sqrt_2pi) in *.
  set (f := math.normal_pdf x) in *.
  set (h := horner t) in *.
  assert (Hfh : 0 < f * h) by now apply Rmult_lt_0_compat.
  assert (Hfh' : f * h <= c * poly_at_1).
  { apply Rmult_le_compat; lra. }
  lra.
Qed.

Lemma normal_cdf_unit (x : R) : 0 < math.normal_cdf x < 1.
Proof.
  destruct (Rlt_dec x 0) as [Hneg | Hpos].
  - rewrite (normal_cdf_reflection Hneg).
    assert (Hn : 0 <= - x) by lra.
    assert (E : math.normal_cdf (- x) = math.normal_cdf_tail (- x)).
    { unfold math.normal_cdf. to_R.
      now replace (Rltb (- x) 0) with false
        by (symmetry; apply Rltb_false; lra). }
    rewrite E. pose proof (normal_cdf_tail_range Hn). lra.
  - assert (E : math.normal_cdf x = math.normal_cdf_tail x).
    { unfold math.normal_cdf. to_R.
      now replace (Rltb x 0) with false
        by (symmetry; apply Rltb_false; lra). }
    rewrite E. assert (Hx : 0 <= x) by lra.
    pose proof (normal_cdf_tail_range Hx). lra.
Qed.

(** X2: [normal_cdf] is a probability, strictly between 0 and 1, for every
    real argument; it is above one half for [x >= 0] and below one half
    for [x < 0]. *)
Theorem normal_cdf_range (x : R) :
  0 < math.normal_cdf x < 1 /\
  (0 <= x -> 1 / 2 < math.normal_cdf x) /\
  (x < 0 -> math.normal_cdf x < 1 / 2).
Proof.
  destruct (Rlt_dec x 0) as [Hneg | Hpos].
  - rewrite (normal_cdf_reflection Hneg).
    assert (Hn : 0 <= - x) by lra.
    assert (E : math.normal_cdf (- x) = math.normal_cdf_tail (- x)).
    { unfold math.normal_cdf. to_R.
      now replace (Rltb (- x) 0) with false
        by (symmetry; apply Rltb_false; lra). }
    rewrite E. pose proof (normal_cdf_tail_range Hn).
    repeat split; intros; lra.
  - assert (E : math.normal_cdf x = math.normal_cdf_tail x).
    { unfold math.normal_cdf. to_R.
      now replace (Rltb x 0) with false
        by (symmetry; apply Rltb_false; lra). }
    rewrite E. assert (Hx : 0 <= x) by lra.
    pose proof (normal_cdf_tail_range Hx).
    repeat split; intros; lra.
Qed.

Lemma normal_cdf_range_witness :
  1 / 2 < math.normal_cdf 1 /\ math.normal_cdf (-1) < 1 / 2.
Proof.
  split.
  - apply (proj1 (proj2 (normal_cdf_range 1))). lra.
  - apply (proj2 (proj2 (normal_cdf_range (-1)))). lra.
Defined.
End math_real.


(** ** Prices and Greeks of the Black-Scholes model over the reals *)

Module model_real_more.
Import real model model_facts model_real normal_cdf_real math_real.
Local Open Scope R_scope.

Lemma validate_replace (info : BlackScholesCreateInfo R) (bS bK bv bT : bool) :
  Rleb (spot_price info) 0 = bS -> Rleb (strike_price info) 0 = bK ->
  Rltb (volatility info) 0 = bv -> Rleb (time_to_maturity info) 0 = bT ->
  validate info =
  if bS then inl (invalid_argument "Spot price must be positive"%string)
  else if bK then inl (invalid_argument "Strike price must be positive"%string)
  else if bv then inl (invalid_argument "Volatility cannot be negative"%string)
  else if bT then
    inl (invalid_argument "Time to maturity must be positive"%string)
  else inr tt.
Proof. intros <- <- <- <-. reflexivity. Qed.

Lemma ctor_inl_of_validate (info : BlackScholesCreateInfo R) (e : exception) :
  validate info = inl e -> BlackScholesModel_ctor info = inl e.
Proof. intros E. unfold BlackScholesModel_ctor. now rewrite E. Qed.

(** X7: the constructor reports the first constraint that fails, in the
    order spot, strike, volatility, maturity, each with its own message;
    later constraints are not looked at. *)
Theorem ctor_first_failure (info : BlackScholesCreateInfo R) :
  let S := spot_price info in
  let K := strike_price info in
  let sigma := volatility info in
  let tau := time_to_maturity info in
  (S <= 0 ->
   BlackScholesModel_ctor info
   = inl (invalid_argument "Spot price must be positive"%string)) /\
  (0 < S -> K <= 0 ->
   BlackScholesModel_ctor info
   = inl (invalid_argument "Strike price must be positive"%string)) /\
  (0 < S -> 0 < K -> sigma < 0 ->
   BlackScholesModel_ctor info
   = inl (invalid_argument "Volatility cannot be negative"%string)) /\
  (0 < S -> 0 < K -> 0 <= sigma -> tau <= 0 ->
   BlackScholesModel_ctor info
   = inl (invalid_argument "Time to maturity must be positive"%string)).
Proof.
  intros S K sigma tau. subst S K sigma tau.
  destruct (Rleb (spot_price info) 0) eqn:ES;
    destruct (Rleb (strike_price info) 0) eqn:EK;
    destruct (Rltb (volatility info) 0) eqn:Ev;
    destruct (Rleb (time_to_maturity info) 0) eqn:ET;
    pose proof (validate_replace info ES EK Ev ET) as V; cbn in V;
    rewrite ?Rleb_true, ?Rleb_false, ?Rltb_true, ?Rltb_false in *;
    repeat split; intros; try lra;
    apply ctor_inl_of_validate; exact V.
Qed.

Lemma ctor_first_failure_witness :
  BlackScholesModel_ctor
    {| spot_price := 100; strike_price := 0; risk_free_rate := 0.05;
       volatility := -1; time_to_maturity := 0 |}
  = inl (invalid_argument "Strike price must be positive"%string).
Proof.
  apply (proj1 (proj2 (ctor_first_failure
           {| spot_price := 100; strike_price := 0; risk_free_rate := 0.05;
              volatility := -1; time_to_maturity := 0 |}))); cbn; lra.
Defined.

(** What a successful construction says about the parameters. *)
Lemma ctor_inr_real (info : BlackScholesCreateInfo R)
  (m : BlackScholesModel R) :
  BlackScholesModel_ctor info = inr m ->
  0 < spot_price info /\ 0 < strike_price info /\
  0 <= volatility info /\ 0 < time_to_maturity info.
Proof.
  intros E.
  assert (N : ~ (spot_price info <= 0 \/ strike_price info <= 0 \/
                 volatility info < 0 \/ time_to_maturity info <= 0)).
  { intros D. apply ctor_fails_iff_real in D as [e Fe].
    rewrite E in Fe. discriminate. }
  repeat split;
    [ apply Rnot_le_lt | apply Rnot_le_lt | apply Rnot_lt_le
    | apply Rnot_le_lt ]; intros Hn; apply N; tauto.
Qed.

Lemma cdf_opp (d : R) :
  d <> 0 -> math.normal_cdf (- d) = 1 - math.normal_cdf d.
Proof. intros Hd. pose proof (normal_cdf_sum_nonzero Hd). lra. Qed.

Lemma reference_d :
  spec_d1 reference_info = 0.35 /\ spec_d2 reference_info = 0.15.
Proof.
  unfold spec_d2, spec_d1. cbn [reference_info spot_price strike_price
    risk_free_rate volatility time_to_maturity]. to_R.
  replace (100 / 100) with 1 by lra. rewrite ln_1, sqrt_1. split; lra.
Qed.

(** X3: whenever [d1] and [d2] are not zero, the put price obtained from
    parity is the textbook formula [K * exp(-r tau) * Phi(-d2) - S *
    Phi(-d1)]. *)
Theorem put_price_direct (info : BlackScholesCreateInfo R)
  (m : BlackScholesModel R) (qs : list read) :
  BlackScholesModel_ctor info = inr m ->
  spec_d1 info <> 0 -> spec_d2 info <> 0 ->
  fst (put_price (do_reads m qs))
  = strike_price info
    * exp (- risk_free_rate info * time_to_maturity info)
    * math.normal_cdf (- spec_d2 info)
    - spot_price info * math.normal_cdf (- spec_d1 info).
Proof.
  intros E H1 H2.
  pose proof (reachable_consistent info qs E) as C.
  rewrite (proj1 (put_price_consistent C)).
  rewrite (cdf_opp H1), (cdf_opp H2).
  unfold spec_put_price, spec_call_price. to_R. ring.
Qed.

Lemma put_price_direct_witness :
  fst (put_price (do_reads (fresh reference_info) [read_call_price]))
  = strike_price reference_info
    * exp (- risk_free_rate reference_info * time_to_maturity reference_info)
    * math.normal_cdf (- spec_d2 reference_info)
    - spot_price reference_info * math.normal_cdf (- spec_d1 reference_info).
Proof.
  apply (@put_price_direct reference_info _ [read_call_price]
           ctor_reference).
  - rewrite (proj1 reference_d). lra.
  - rewrite (proj2 reference_d). lra.
Defined.

(** X4: over the reals, with a positive volatility (so that [d1] and [d2]
    are quotients by a positive number), the deltas of the call and of the
    put differ by [1]; and, when moreover [d2] is not zero, the rhos differ
    by [K * tau * exp(-r tau)] and the thetas by [- r * K * exp(-r tau)]. *)
Theorem greeks_parity (info : BlackScholesCreateInfo R)
  (m : BlackScholesModel R) (qs qs' : list read) :
  BlackScholesModel_ctor info = inr m ->
  0 < volatility info ->
  let K := strike_price info in
  let r := risk_free_rate info in
  let tau := time_to_maturity info in
  let cg := fst (call_greeks (do_reads m qs)) in
  let pg := fst (put_greeks (do_reads m qs')) in
  0 < volatility info * sqrt tau /\
  delta cg - delta pg = 1 /\
  (spec_d2 info <> 0 ->
   rho cg - rho pg = K * tau * exp (- r * tau) /\
   theta cg - theta pg = - (r * K * exp (- r * tau))).
Proof.
  intros E Hv K r tau cg pg.
  destruct (ctor_inr_real info E) as (_ & _ & _ & HT).
  assert (Hc : cg = spec_call_greeks info)
    by (apply call_greeks_consistent, reachable_consistent, E).
  assert (Hp : pg = spec_put_greeks info)
    by (apply put_greeks_consistent, reachable_consistent, E).
  rewrite Hc, Hp. cbn [spec_call_greeks spec_put_greeks delta rho theta].
  unfold spec_call_greeks, spec_put_greeks. cbn [delta rho theta].
  to_R. fold K r tau.
  split; [ apply Rmult_lt_0_compat; [ exact Hv | now apply sqrt_lt_R0 ] | ].
  split; [ ring | ].
  intros H2. rewrite (cdf_opp H2).
  split; unfold Rdiv; ring.
Qed.

Lemma greeks_parity_witness :
  let cg := fst (call_greeks (do_reads (fresh reference_info) [])) in
  let pg :=
    fst (put_greeks (do_reads (fresh reference_info) [read_call_greeks])) in
  delta cg - delta pg = 1 /\
  rho cg - rho pg = 100 * 1 * exp (- (0.05) * 1).
Proof.
  pose proof (@greeks_parity reference_info _ [] [read_call_greeks]
                ctor_reference) as G.
  cbv zeta in G.
  assert (Hv : 0 < volatility reference_info) by (cbn; lra).
  destruct (G Hv) as (_ & Hd & Hr).
  split; [ exact Hd | ].
  refine (proj1 (Hr _)). rewrite (proj2 reference_d). lra.
Defined.

(** X5: with a positive volatility the Greeks have the signs of the
    theory: the call delta is in (0, 1) and the put delta in (-1, 0);
    gamma and vega are positive; the call rho is positive and the put rho
    negative. *)
Theorem greeks_signs (info : BlackScholesCreateInfo R)
  (m : BlackScholesModel R) (qs qs' : list read) :
  BlackScholesModel_ctor info = inr m ->
  0 < volatility info ->
  let cg := fst (call_greeks (do_reads m qs)) in
  let pg := fst (put_greeks (do_reads m qs')) in
  0 < delta cg < 1 /\ -1 < delta pg < 0 /\
  0 < gamma cg /\ 0 < vega cg /\
  0 < rho cg /\ rho pg < 0.
Proof.
  intros E Hv cg pg.
  destruct (ctor_inr_real info E) as (HS & HK & _ & HT).
  assert (Hc : cg = spec_call_greeks info)
    by (apply call_greeks_consistent, reachable_consistent, E).
  assert (Hp : pg = spec_put_greeks info)
    by (apply put_greeks_consistent, reachable_consistent, E).
  rewrite Hc, Hp. unfold spec_call_greeks, spec_put_greeks.
  cbn [delta gamma vega rho]. to_R.
  pose proof (normal_cdf_unit (spec_d1 info)) as R1.
  pose proof (normal_cdf_unit (spec_d2 info)) as R2.
  pose proof (normal_cdf_unit (- spec_d2 info)) as R3.
  pose proof (proj1 (normal_pdf_pos_le (spec_d1 info))) as Hphi.
  pose proof (sqrt_lt_R0 _ HT) as Hsq.
  pose proof (exp_pos
                (- risk_free_rate info * time_to_maturity info)) as He.
  set (S := spot_price info) in *. set (K := strike_price info) in *.
  set (tau := time_to_maturity info) in *. set (sigma := volatility info) in *.
  set (e := exp (- risk_free_rate info * tau)) in *.
  assert (HKte : 0 < K * tau * e)
    by (apply Rmult_lt_0_compat; [ apply Rmult_lt_0_compat | ]; assumption).
  repeat split; try lra.
  - apply Rdiv_lt_0_compat; [ exact Hphi | ].
    apply Rmult_lt_0_compat; [ apply Rmult_lt_0_compat | ]; assumption.
  - apply Rmult_lt_0_compat; [ apply Rmult_lt_0_compat | ]; assumption.
  - apply Rmult_lt_0_compat; [ exact HKte | lra ].
  - replace (- K * tau * e * math.normal_cdf (- spec_d2 info))
      with (- (K * tau * e * math.normal_cdf (- spec_d2 info))) by ring.
    assert (0 < K * tau * e * math.normal_cdf (- spec_d2 info))
      by (apply Rmult_lt_0_compat; [ exact HKte | lra ]).
    lra.
Qed.

Lemma greeks_signs_witness :
  0 < gamma (fst (call_greeks (do_reads (fresh reference_info) []))).
Proof.
  refine (proj1 (proj2 (proj2
            (@greeks_signs reference_info _ [] [] ctor_reference _)))).
  cbn. lra.
Defined.

(** X6: over the reals, with a positive volatility, the prices respect the
    upper bounds of the theory, the call price is below the spot and the
    put price below the discounted strike; from below they are bounded by
    the opposite of the other bound. *)
Theorem price_bounds (info : BlackScholesCreateInfo R)
  (m : BlackScholesModel R) (qs qs' : list read) :
  BlackScholesModel_ctor info = inr m ->
  0 < volatility info ->
  let S := spot_price info in
  let Ke :=
    strike_price info
    * exp (- risk_free_rate info * time_to_maturity info) in
  let C := fst (call_price (do_reads m qs)) in
  let P := fst (put_price (do_reads m qs')) in
  0 < volatility info * sqrt (time_to_maturity info) /\
  - Ke < C < S /\ - S < P < Ke.
Proof.
  intros E Hv S Ke C P.
  destruct (ctor_inr_real info E) as (HS & HK & _ & HT).
  split; [ apply Rmult_lt_0_compat; [ exact Hv | now apply sqrt_lt_R0 ] | ].
  pose proof (reachable_consistent info qs E) as C1.
  pose proof (reachable_consistent info qs' E) as C2.
  assert (HC : C = spec_call_price info)
    by apply (call_price_consistent C1).
  assert (HP : P = spec_put_price info)
    by apply (put_price_consistent C2).
  rewrite HC, HP. unfold spec_put_price, spec_call_price. to_R.
  fold S. fold Ke.
  pose proof (normal_cdf_unit (spec_d1 info)) as R1.
  pose proof (normal_cdf_unit (spec_d2 info)) as R2.
  assert (HKe : 0 < Ke) by (apply Rmult_lt_0_compat; [ | apply exp_pos ]; exact HK).
  fold S in HS.
  set (p1 := math.normal_cdf (spec_d1 info)) in *.
  set (p2 := math.normal_cdf (spec_d2 info)) in *.
  assert (0 < S * p1 < S) by nra.
  assert (0 < Ke * p2 < Ke) by nra.
  repeat split; lra.
Qed.

Lemma price_bounds_witness :
  fst (call_price (do_reads (fresh reference_info) [])) < 100.
Proof.
  refine (proj2 (proj1 (proj2
            (@price_bounds reference_info _ [] [] ctor_reference _)))).
  cbn. lra.
Defined.
End model_real_more.


(** ** The engine across policies and across calls *)

Module method_more.
Import method method_facts.

Section Generic.
Context {T : Type} `{Arithmetic T}.
Variable Gen : Type.
Variable normal_draw : Gen -> T * Gen.
Local Open Scope arith_scope.

(** The loop of [demos/gbm_sim_demo.cpp]: [k] calls of
    [simulate_gbm_terminal] on one engine; the values it prints, in order,
    and the generator after them. *)
Fixpoint simulate_paths (k : nat) (g : Gen) (S0 r sigma time : T)
  : list T * Gen :=
  match k with
  | O => ([], g)
  | S k' =>
      let (ST, g) := simulate_gbm_terminal normal_draw g S0 r sigma time in
      let (rest, g) := simulate_paths k' g S0 r sigma time in
      (ST :: rest, g)
  end.

Lemma draws_app (n k : nat) : forall g,
  draws normal_draw (n + k) g
  = (fst (draws normal_draw n g)
     ++ fst (draws normal_draw k (snd (draws normal_draw n g))),
     snd (draws normal_draw k (snd (draws normal_draw n g)))).
Proof.
  induction n as [ | n IH]; intros g; cbn [Nat.add draws].
  - cbn. now destruct (draws normal_draw k g).
  - destruct (normal_draw g) as [z g1]. rewrite IH.
    destruct (draws normal_draw n g1) as [zs g2]. reflexivity.
Qed.

Lemma simulate_paths_draws (S0 r sigma time : T) (k : nat) : forall g,
  simulate_paths k g S0 r sigma time
  = (map (method.terminal_price S0 r sigma time)
       (fst (draws normal_draw k g)),
     snd (draws normal_draw k g)).
Proof.
  induction k as [ | k IH]; intros g; cbn [simulate_paths draws].
  - reflexivity.
  - rewrite simulate_gbm_terminal_draw.
    destruct (normal_draw g) as [z g1]. cbn [fst snd]. rewrite IH.
    destruct (draws normal_draw k g1) as [zs g2]. reflexivity.
Qed.

Section Pricing.
Variables S0 K r sigma time : T.

(** X8: the execution policy changes nothing that can be observed: from
    the same trial count and generator state, every two policies ([Auto]
    on either side of its threshold included) give the same call and put
    results and the same generator afterwards; the configuration of the
    engine is left as it was. *)
Theorem policy_irrelevant (n seed seed' : Z) (pol pol' : ExecutionPolicy)
  (g : Gen) :
  let engine s p :=
    {| config_ := {| num_simulations := n; seed := s; policy := p |};
       gen_ := g |} in
  let run s p :=
    price_european_call_and_put normal_draw S0 K r sigma time (engine s p) in
  fst (run seed pol) = fst (run seed' pol') /\
  gen_ (snd (run seed pol)) = gen_ (snd (run seed' pol')) /\
  gen_ (snd (run seed pol)) = snd (draws normal_draw (Z.to_nat n) g) /\
  config_ (snd (run seed pol)) = config_ (engine seed pol).
Proof.
  intros engine run. unfold run. rewrite !price_paired.
  unfold statistics_of, paired_payoffs. cbn. repeat split; reflexivity.
Qed.

(** X9: two pricing calls in a row on one engine consume [2 N] variates:
    the first call uses the first [N] draws from the engine's state, the
    second call the next [N], and the generator ends in the state after
    [2 N] draws.  The market inputs of the two calls may differ. *)
Theorem successive_calls (this : MonteCarloPricer Gen)
  (S0' K' r' sigma' time' : T) :
  let N := Z.to_nat (num_simulations (config_ this)) in
  let first_call :=
    price_european_call_and_put normal_draw S0 K r sigma time this in
  let second_call :=
    price_european_call_and_put normal_draw S0' K' r' sigma' time'
      (snd first_call) in
  let zs := fst (draws normal_draw (N + N) (gen_ this)) in
  let STs := map (method.terminal_price S0 r sigma time) (firstn N zs) in
  let STs' :=
    map (method.terminal_price S0' r' sigma' time') (skipn N zs) in
  fst first_call
  = {| call := compute_statistics (map (call_payoff K) STs)
                 (std_exp (- r * time));
       put := compute_statistics (map (put_payoff K) STs)
                (std_exp (- r * time)) |} /\
  fst second_call
  = {| call := compute_statistics (map (call_payoff K') STs')
                 (std_exp (- r' * time'));
       put := compute_statistics (map (put_payoff K') STs')
                (std_exp (- r' * time')) |} /\
  gen_ (snd second_call) = snd (draws normal_draw (N + N) (gen_ this)) /\
  config_ (snd second_call) = config_ this.
Proof.
  intros N first_call second_call zs STs STs'.
  subst first_call second_call zs STs STs'. rewrite !price_paired.
  unfold paired_payoffs. cbn [statistics_of fst snd config_ gen_]. fold N.
  rewrite (draws_app N N (gen_ this)). cbn [fst snd].
  pose proof (draws_length normal_draw N (gen_ this)) as L.
  set (a := fst (draws normal_draw N (gen_ this))) in *.
  set (b := fst (draws normal_draw N
                   (snd (draws normal_draw N (gen_ this))))).
  assert (Ef : firstn N (a ++ b) = a).
  { rewrite firstn_app, firstn_all2 by lia.
    rewrite L, Nat.sub_diag. cbn. apply app_nil_r. }
  assert (Es : skipn N (a ++ b) = b).
  { rewrite skipn_app, skipn_all2 by lia.
    rewrite L, Nat.sub_diag. reflexivity. }
  rewrite Ef, Es. repeat split; reflexivity.
Qed.
End Pricing.
End Generic.
End method_more.


(** ** The Monte Carlo estimates over the reals *)

Module method_real_more.
Import real method method_facts method_real method_more.
Local Open Scope R_scope.

(** A source of variates for concrete instances: it returns 0, 1, 2, ... *)
Definition counter_draw (g : nat) : R * nat := (INR g, S g).

Lemma std_max_Rmax (a b : R) : std_max a b = Rmax a b.
Proof.
  unfold std_max, Rmax. to_R. unfold Rltb.
  destruct (Rlt_dec a b), (Rle_dec a b); try reflexivity; lra.
Qed.

Lemma payoff_difference (K ST : R) :
  call_payoff K ST - put_payoff K ST = ST - K.
Proof.
  unfold call_payoff, put_payoff. rewrite !std_max_Rmax. to_R.
  unfold Rmax. destruct (Rle_dec (ST - K) 0), (Rle_dec (K - ST) 0); lra.
Qed.

Lemma payoff_bounds (K ST : R) :
  0 <= call_payoff K ST /\ 0 <= put_payoff K ST /\
  (0 <= ST -> 0 <= K -> put_payoff K ST <= K).
Proof.
  unfold call_payoff, put_payoff. rewrite !std_max_Rmax. to_R.
  unfold Rmax. destruct (Rle_dec (ST - K) 0), (Rle_dec (K - ST) 0);
    repeat split; intros; lra.
Qed.

Lemma spec_sum_map_sub (f h : R -> R) (l : list R) :
  spec_sum (map f l) - spec_sum (map h l)
  = spec_sum (map (fun x => f x - h x) l).
Proof.
  induction l as [ | x l IH]; cbn; [ lra | ]. unfold spec_sum in *. lra.
Qed.

Lemma spec_sum_shift (K : R) (l : list R) :
  spec_sum (map (fun x => x - K) l) = spec_sum l - INR (length l) * K.
Proof.
  induction l as [ | x l IH]; [ cbn; lra | ].
  cbn [map length]. rewrite S_INR. unfold spec_sum in *. cbn [fold_right].
  rewrite IH. lra.
Qed.

Lemma spec_sum_bounds (lo hi : R) (f : R -> R) (l : list R) :
  (forall x, In x l -> lo <= f x <= hi) ->
  INR (length l) * lo <= spec_sum (map f l) <= INR (length l) * hi.
Proof.
  induction l as [ | x l IH]; intros Hb; [ cbn; lra | ].
  cbn [map length]. rewrite S_INR. unfold spec_sum in *. cbn [fold_right].
  assert (Hx : lo <= f x <= hi) by (apply Hb; now left).
  assert (Hl : forall y, In y l -> lo <= f y <= hi)
    by (intros y Hy; apply Hb; now right).
  specialize (IH Hl). lra.
Qed.

Lemma spec_sum_nonneg (f : R -> R) (l : list R) :
  (forall x, 0 <= f x) -> 0 <= spec_sum (map f l).
Proof.
  intros Hf. induction l as [ | x l IH]; [ cbn; lra | ].
  cbn [map]. unfold spec_sum in *. cbn [fold_right].
  specialize (Hf x). lra.
Qed.

Lemma price_of_sample (payoffs : list R) (discount : R) :
  (Z.of_nat (length payoffs) < size_t_modulus)%Z ->
  price (compute_statistics payoffs discount)
  = discount * (spec_sum payoffs / INR (length payoffs)).
Proof.
  intros Hs. unfold compute_statistics. cbn [price].
  rewrite (vector_size_small payoffs Hs). to_R.
  rewrite accumulate_sum, <- INR_IZR_INZ. now rewrite Rplus_0_l.
Qed.

Lemma spec_variance_nonneg (l : list R) :
  (2 <= length l)%nat -> 0 <= spec_variance l / INR (length l).
Proof.
  intros H2. unfold spec_variance.
  assert (HN : 2 <= INR (length l)).
  { replace 2 with (INR 2) by (cbn; lra). now apply le_INR. }
  assert (Hsq : 0 <= spec_sum (map (fun payoff => (payoff - spec_mean l) ^ 2) l)).
  { apply spec_sum_nonneg. intros x. apply pow2_ge_0. }
  apply Rmult_le_pos; [ apply Rmult_le_pos; [ exact Hsq | ] | ].
  - left. apply Rinv_0_lt_compat. lra.
  - left. apply Rinv_0_lt_compat. lra.
Qed.

Lemma standard_error_of_sample (payoffs : list R) (discount : R) :
  (2 <= length payoffs)%nat ->
  (Z.of_nat (length payoffs) < size_t_modulus)%Z ->
  standard_error (compute_statistics payoffs discount)
  = discount * sqrt (spec_variance payoffs / INR (length payoffs)).
Proof.
  intros H2 Hs. unfold compute_statistics. cbn [standard_error].
  rewrite (vector_size_small payoffs Hs).
  unfold size_t_sub. rewrite Z.mod_small by (unfold size_t_modulus in *; lia).
  to_R.
  rewrite accumulate_sum, accumulate_squares.
  rewrite minus_IZR, <- INR_IZR_INZ.
  rewrite !Rplus_0_l. reflexivity.
Qed.

Section Engine.
Variable Gen : Type.
Variable normal_draw : Gen -> R * Gen.
Variables S0 K r sigma time : R.
Variable this : MonteCarloPricer Gen.

Let n := num_simulations (config_ this).
Let STs :=
  map (method.terminal_price S0 r sigma time)
    (fst (draws normal_draw (Z.to_nat n) (gen_ this))).
Let result :=
  fst (price_european_call_and_put normal_draw S0 K r sigma time this).

Lemma result_paired :
  result = {| call := compute_statistics (map (call_payoff K) STs)
                        (exp (- r * time));
              put := compute_statistics (map (put_payoff K) STs)
                       (exp (- r * time)) |}.
Proof. unfold result. rewrite price_paired. reflexivity. Qed.

Lemma STs_length : length STs = Z.to_nat n.
Proof. unfold STs. now rewrite length_map, draws_length. Qed.

Lemma terminal_price_pos (z : R) :
  (0 < S0 -> 0 < method.terminal_price S0 r sigma time z) /\
  (0 <= S0 -> 0 <= method.terminal_price S0 r sigma time z).
Proof.
  unfold method.terminal_price. to_R.
  set (e := exp _). pose proof (exp_pos
    ((r - sigma * sigma / 2) * time + sigma * sqrt time * z)) as He.
  fold e in He. split; intros; nra.
Qed.

Hypothesis n_range : (1 <= n < size_t_modulus)%Z.

Lemma sample_size :
  (Z.of_nat (length STs) < size_t_modulus)%Z /\ 0 < INR (length STs).
Proof.
  rewrite STs_length. split; [ lia | ].
  apply lt_0_INR. lia.
Qed.

(** X10: the two estimates of one call satisfy a parity identity of their
    own, exactly: call price minus put price is the discounted difference
    between the mean simulated terminal price and the strike.  It holds
    because both payoffs come from the same terminal prices. *)
Theorem monte_carlo_parity :
  price (call result) - price (put result)
  = exp (- r * time) * (spec_mean STs - K).
Proof.
  rewrite result_paired. cbn [call put].
  destruct sample_size as [Hs Hn].
  rewrite !price_of_sample by (now rewrite length_map).
  rewrite !length_map. unfold spec_mean.
  set (N := INR (length STs)) in *.
  assert (E : spec_sum (map (call_payoff K) STs)
              - spec_sum (map (put_payoff K) STs)
              = spec_sum STs - N * K).
  { rewrite spec_sum_map_sub.
    rewrite (map_ext _ (fun x => x - K) (payoff_difference K)).
    apply spec_sum_shift. }
  set (c := spec_sum (map (call_payoff K) STs)) in *.
  set (p := spec_sum (map (put_payoff K) STs)) in *.
  replace c with (p + (spec_sum STs - N * K)) by lra.
  field. lra.
Qed.

(** X11: over the reals, for a maturity that is not negative: with at
    least one trial the call and put prices are not negative, and if the
    spot and the strike are not negative the put price is at most the
    discounted strike; with at least two trials the standard errors are
    the discounted roots of quantities that are not negative (the sample
    variances over [N]), and they and the confidence half-widths are not
    negative. *)
Theorem estimates_bounds :
  0 <= time ->
  let DF := exp (- r * time) in
  let calls := map (call_payoff K) STs in
  let puts := map (put_payoff K) STs in
  0 <= price (call result) /\
  0 <= price (put result) /\
  (0 <= S0 -> 0 <= K -> price (put result) <= K * DF) /\
  ((2 <= n)%Z ->
   0 <= spec_variance calls / INR (length calls) /\
   0 <= spec_variance puts / INR (length puts) /\
   standard_error (call result)
   = DF * sqrt (spec_variance calls / INR (length calls)) /\
   standard_error (put result)
   = DF * sqrt (spec_variance puts / INR (length puts)) /\
   0 <= standard_error (call result) /\
   0 <= standard_error (put result) /\
   0 <= confidence_interval (call result) /\
   0 <= confidence_interval (put result)).
Proof.
  intros Htime DF calls puts.
  rewrite result_paired. cbn [call put]. fold DF calls puts.
  destruct sample_size as [Hs Hn].
  pose proof (exp_pos (- r * time)) as He. fold DF in He.
  assert (Hc : 0 <= spec_sum calls)
    by (apply spec_sum_nonneg; intros x; apply payoff_bounds).
  assert (Hp : 0 <= spec_sum puts)
    by (apply spec_sum_nonneg; intros x; apply payoff_bounds).
  assert (Lc : length calls = length STs) by apply length_map.
  assert (Lp : length puts = length STs) by apply length_map.
  rewrite !price_of_sample by (rewrite ?Lc, ?Lp; exact Hs).
  rewrite Lc, Lp.
  set (N := INR (length STs)) in *.
  assert (HiN : 0 < / N) by now apply Rinv_0_lt_compat.
  split; [ | split; [ | split ] ].
  - unfold Rdiv. apply Rmult_le_pos; [ lra | ]. apply Rmult_le_pos; lra.
  - unfold Rdiv. apply Rmult_le_pos; [ lra | ]. apply Rmult_le_pos; lra.
  - intros HS0 HK.
    assert (B : INR (length STs) * 0 <= spec_sum puts
                <= INR (length STs) * K).
    { apply (@spec_sum_bounds 0 K (put_payoff K) STs).
      intros x Hx. unfold STs in Hx.
      apply in_map_iff in Hx as (z & <- & _).
      pose proof (payoff_bounds K
                    (method.terminal_price S0 r sigma time z)) as (_ & P0 & P1).
      split; [ exact P0 | ].
      apply P1; [ | exact HK ]. now apply terminal_price_pos. }
    fold N in B.
    assert (spec_sum puts / N <= K).
    { unfold Rdiv. apply Rmult_le_reg_r with N; [ exact Hn | ].
      rewrite Rmult_assoc, Rinv_l by lra. lra. }
    nra.
  - intros H2.
    assert (L2 : (2 <= length STs)%nat) by (rewrite STs_length; lia).
    assert (Vc : 0 <= spec_variance calls / INR (length calls))
      by (apply spec_variance_nonneg; now rewrite Lc).
    assert (Vp : 0 <= spec_variance puts / INR (length puts))
      by (apply spec_variance_nonneg; now rewrite Lp).
    unfold confidence_interval.
    rewrite !standard_error_of_sample by (rewrite ?Lc, ?Lp; assumption).
    rewrite Lc in Vc |- *. rewrite Lp in Vp |- *. fold N in Vc, Vp |- *.
    pose proof (sqrt_pos (spec_variance calls / N)) as Sc.
    pose proof (sqrt_pos (spec_variance puts / N)) as Sp.
    assert (Ec : 0 <= DF * sqrt (spec_variance calls / N))
      by (apply Rmult_le_pos; lra).
    assert (Ep : 0 <= DF * sqrt (spec_variance puts / N))
      by (apply Rmult_le_pos; lra).
    to_R.
    repeat split; try assumption; try reflexivity;
      (apply Rmult_le_pos; [ simpl pow; lra | assumption ]).
Qed.
End Engine.

(** An engine for concrete instances: three trials, the counter source. *)
Definition three_trials : MonteCarloPricer nat :=
  {| config_ := {| num_simulations := 3; seed := 42; policy := Auto |};
     gen_ := O |}.

Lemma three_trials_range :
  (1 <= num_simulations (config_ three_trials) < size_t_modulus)%Z.
Proof. cbn. unfold size_t_modulus. lia. Qed.

Lemma monte_carlo_parity_witness :
  let result :=
    fst (price_european_call_and_put counter_draw 100 100 0.05 0.2 1
           three_trials) in
  price (call result) - price (put result)
  = exp (- (0.05) * 1)
    * (spec_mean
         (map (method.terminal_price 100 0.05 0.2 1)
            (fst (draws counter_draw 3 O))) - 100).
Proof.
  exact (@monte_carlo_parity nat counter_draw 100 100 0.05 0.2 1
           three_trials three_trials_range).
Defined.

Lemma estimates_bounds_witness :
  let result :=
    fst (price_european_call_and_put counter_draw 100 100 0.05 0.2 1
           three_trials) in
  0 <= price (call result) /\ 0 <= standard_error (call result).
Proof.
  assert (Htime : 0 <= 1) by lra.
  pose proof (@estimates_bounds nat counter_draw 100 100 0.05 0.2 1
                three_trials three_trials_range Htime) as B.
  cbv zeta in B. destruct B as (Bc & _ & _ & B2).
  split; [ exact Bc | ].
  refine (proj1 (proj2 (proj2 (proj2 (proj2 (B2 _)))))).
  cbn. lia.
Defined.

Section Paths.
Variable Gen : Type.
Variable normal_draw : Gen -> R * Gen.
Variables S0 r sigma time : R.

(** X13: over the reals, for a maturity that is not negative (so that its
    root is defined): the [k] terminal prices simulated by the loop of the
    GBM demo are the pricing function at the first [k] variates, so they
    are the terminal prices a pricing call of [k] trials would use from the
    same state; and for a positive spot every one of them is positive. *)
Theorem simulated_paths_positive (k : nat) (g : Gen) :
  0 < S0 -> 0 <= time ->
  let paths := fst (simulate_paths normal_draw k g S0 r sigma time) in
  length paths = k /\
  paths = map (fun z => S0 * exp ((r - sigma * sigma / 2) * time
                                  + sigma * sqrt time * z))
            (fst (draws normal_draw k g)) /\
  snd (simulate_paths normal_draw k g S0 r sigma time)
  = snd (draws normal_draw k g) /\
  Forall (fun ST => 0 < ST) paths.
Proof.
  intros HS Htime paths. subst paths.
  rewrite simulate_paths_draws. cbn [fst snd].
  split; [ now rewrite length_map, draws_length | ].
  split; [ reflexivity | ]. split; [ reflexivity | ].
  apply Forall_forall. intros x Hx.
  apply in_map_iff in Hx as (z & <- & _).
  now apply terminal_price_pos.
Qed.

(** X12: in exact real arithmetic, for a maturity that is not negative:
    with zero volatility every path ends at [S0 * exp(r * time)], so with
    at least two trials the estimates are exact and carry no error: the
    call price is the discounted payoff of that one terminal price,
    likewise the put price, and both standard errors are zero.  (The
    rounding of the mean in [double] is outside this statement.) *)
Theorem zero_volatility_estimates (K : R) (this : MonteCarloPricer Gen) :
  (2 <= num_simulations (config_ this) < size_t_modulus)%Z ->
  0 <= time ->
  let result :=
    fst (price_european_call_and_put normal_draw S0 K r 0 time this) in
  let ST := S0 * exp (r * time) in
  price (call result) = exp (- r * time) * Rmax (ST - K) 0 /\
  price (put result) = exp (- r * time) * Rmax (K - ST) 0 /\
  standard_error (call result) = 0 /\
  standard_error (put result) = 0.
Proof.
  intros Hn Htime result ST. unfold result.
  rewrite (result_paired normal_draw S0 K r 0 time this).
  cbn [call put].
  set (n := Z.to_nat (num_simulations (config_ this))).
  assert (HT : forall z, method.terminal_price S0 r 0 time z = ST).
  { intros z. unfold method.terminal_price, ST. to_R. f_equal. f_equal. lra. }
  rewrite (map_ext _ (fun _ => ST) HT).
  pose proof (draws_length normal_draw n (gen_ this)) as L.
  set (zs := fst (draws normal_draw n (gen_ this))) in *.
  rewrite !map_map.
  rewrite <- !std_max_Rmax.
  change (std_max (ST - K) 0) with (call_payoff K ST).
  change (std_max (K - ST) 0) with (put_payoff K ST).
  assert (Hconst : forall c : R,
            let l := map (fun _ : R => c) zs in
            price (compute_statistics l (exp (- r * time)))
            = exp (- r * time) * c /\
            standard_error (compute_statistics l (exp (- r * time))) = 0).
  { intros c l.
    assert (Ll : length l = n) by (unfold l; now rewrite length_map).
    assert (Hs : (Z.of_nat (length l) < size_t_modulus)%Z)
      by (rewrite Ll; unfold n; lia).
    assert (HN : 2 <= INR (length l)).
    { rewrite Ll. replace 2 with (INR 2) by (cbn; lra).
      apply le_INR. unfold n. lia. }
    assert (Hsum : spec_sum l = INR (length l) * c).
    { unfold l. clear. induction zs as [ | z l IH]; [ cbn; lra | ].
      cbn [map length]. rewrite S_INR. unfold spec_sum in *.
      cbn [fold_right]. rewrite IH. lra. }
    assert (Hmean : spec_sum l / INR (length l) = c)
      by (rewrite Hsum; field; lra).
    split.
    - rewrite (price_of_sample l _ Hs). now rewrite Hmean.
    - unfold compute_statistics. cbn [standard_error].
      rewrite (vector_size_small l Hs). to_R.
      rewrite accumulate_sum, accumulate_squares, <- INR_IZR_INZ.
      rewrite !Rplus_0_l, Hmean.
      assert (Hsq : spec_sum (map (fun payoff => (payoff - c) ^ 2) l) = 0).
      { unfold l. clear. induction zs as [ | z l IH]; [ reflexivity | ].
        cbn [map]. unfold spec_sum in *. cbn [fold_right]. rewrite IH.
        ring. }
      rewrite Hsq. unfold Rdiv. rewrite !Rmult_0_l, sqrt_0. ring. }
  destruct (Hconst (call_payoff K ST)) as [Pc Ec].
  destruct (Hconst (put_payoff K ST)) as [Pp Ep].
  cbv zeta in Pc, Ec, Pp, Ep.
  repeat split; assumption.
Qed.
End Paths.

Lemma simulated_paths_positive_witness :
  Forall (fun ST => 0 < ST)
    (fst (simulate_paths counter_draw 10 O 100 0.05 0.2 1)).
Proof.
  refine (proj2 (proj2 (proj2
            (@simulated_paths_positive nat counter_draw 100 0.05 0.2 1
               10 O _ _)))); lra.
Defined.

Lemma zero_volatility_estimates_witness :
  standard_error
    (call (fst (price_european_call_and_put counter_draw 100 100 0.05 0 1
                  three_trials)))
  = 0.
Proof.
  refine (proj1 (proj2 (proj2
            (@zero_volatility_estimates nat counter_draw 100 0.05 1 100
               three_trials _ _)))).
  - cbn. unfold size_t_modulus. lia.
  - lra.
Defined.
End method_real_more.


(** ** Binary64: NaN and infinite arguments *)

Module binary64_more.
Import binary64 binary64_facts.

(** [exp] at the special values, as Annex F of the C standard fixes them;
    NaN stands for the values it leaves to the library.  It serves
    concrete instances only. *)
Definition exp_special (x : spec_float) : spec_float :=
  match x with
  | S754_zero _ => of_Z 1
  | S754_infinity true => S754_zero false
  | S754_infinity false => x
  | _ => S754_nan
  end.

(** Not negative-or-zero, as the tests of [validate] see it. *)
Definition positive_or_nan (x : spec_float) : bool :=
  is_nan x || SFltb (of_Z 0) x.

Definition nonnegative_or_nan (x : spec_float) : bool :=
  is_nan x || SFleb (of_Z 0) x.

Lemma leb_zero_false (x : spec_float) :
  SFleb x (of_Z 0) = true <-> positive_or_nan x = false.
Proof.
  destruct x as [s | s | | s m e]; try destruct s; cbn; split; congruence.
Qed.

Lemma ltb_zero_false (x : spec_float) :
  SFltb x (of_Z 0) = true <-> nonnegative_or_nan x = false.
Proof.
  destruct x as [s | s | | s m e]; try destruct s; cbn; split; congruence.
Qed.

Lemma mul_nan_r (x : spec_float) : SFmul prec emax x S754_nan = S754_nan.
Proof. now destruct x. Qed.

Lemma add_nan_r (x : spec_float) : SFadd prec emax x S754_nan = S754_nan.
Proof. now destruct x. Qed.

Lemma sub_nan_r (x : spec_float) : SFsub prec emax x S754_nan = S754_nan.
Proof. now destruct x. Qed.

Lemma div_nan_r (x : spec_float) : SFdiv prec emax x S754_nan = S754_nan.
Proof. now destruct x. Qed.

Section Libm.
Variables libm_exp libm_log : spec_float -> spec_float.

#[local] Instance dbl : Arithmetic spec_float := double libm_exp libm_log.

Ltac to_dbl :=
  cbn [of_int of_decimal op_add op_sub op_mul op_div op_neg op_lt op_le
       std_sqrt std_exp std_log inv_sqrtpi_v sqrt2_v dbl double
       binary64_Arithmetic] in *.

Local Open Scope arith_scope.

(** X14: in binary64 the constructor accepts a parameter set exactly when
    the spot, the strike and the maturity are each positive or NaN and the
    volatility is not negative or is NaN: the four tests are comparisons,
    and every comparison with a NaN is false.  So a set whose fields are
    all NaN is accepted. *)
Theorem nan_parameters_accepted
  (info : model.BlackScholesCreateInfo spec_float) :
  ((exists m, model.BlackScholesModel_ctor info = inr m) <->
   positive_or_nan (model.spot_price info)
   && positive_or_nan (model.strike_price info)
   && nonnegative_or_nan (model.volatility info)
   && positive_or_nan (model.time_to_maturity info) = true) /\
  (forall r : spec_float,
     let nans :=
       {| model.spot_price := S754_nan; model.strike_price := S754_nan;
          model.risk_free_rate := r; model.volatility := S754_nan;
          model.time_to_maturity := S754_nan |} in
     model.BlackScholesModel_ctor nans = inr (model_facts.fresh nans)).
Proof.
  split; [ | reflexivity ].
  pose proof (model_facts.ctor_fails_iff_tests info) as F. to_dbl.
  rewrite !leb_zero_false, ltb_zero_false in F.
  destruct (model.BlackScholesModel_ctor info) as [e | m] eqn:E.
  - pose proof (proj1 F (ex_intro _ e eq_refl)) as D.
    split; [ intros [m Hm]; discriminate | ].
    intros B. rewrite !andb_true_iff in B.
    destruct B as [[[B1 B2] B3] B4].
    destruct D as [D | [D | [D | D]]]; congruence.
  - split; [ intros _ | intros _; now exists m ].
    rewrite !andb_true_iff.
    repeat split; apply not_false_is_true; intros D;
      destruct (proj2 F) as [e0 X]; try discriminate; tauto.
Qed.

(** *** [normal_cdf] *)

Lemma normal_cdf_tail_nan :
  math.normal_cdf_tail S754_nan = S754_nan.
Proof.
  unfold math.normal_cdf_tail. to_dbl.
  set (t := SFdiv prec emax (of_Z 1)
              (SFadd prec emax (of_Z 1) (SFmul prec emax math.p S754_nan))).
  assert (Et : t = S754_nan)
    by (unfold t; now rewrite mul_nan_r, add_nan_r, div_nan_r).
  rewrite Et. cbn [SFmul]. now rewrite mul_nan_r, sub_nan_r.
Qed.

Lemma normal_cdf_of_nan (x : spec_float) :
  is_nan x = true -> math.normal_cdf x = S754_nan.
Proof.
  destruct x; try discriminate. intros _.
  unfold math.normal_cdf. to_dbl. cbn [SFltb SFcompare].
  apply normal_cdf_tail_nan.
Qed.

(** X15: [normal_cdf] of a NaN is a NaN, whatever [exp] returns. *)
Theorem normal_cdf_nan : math.normal_cdf S754_nan = S754_nan.
Proof.
  unfold math.normal_cdf. to_dbl. cbn [SFltb SFcompare].
  apply normal_cdf_tail_nan.
Qed.

Section AtInfinity.
(** The C library returns [+0] for [exp(-inf)]. *)
Hypothesis exp_neg_inf : libm_exp (S754_infinity true) = S754_zero false.

Lemma normal_pdf_inf (s : bool) :
  math.normal_pdf (S754_infinity s) = S754_zero false.
Proof.
  unfold math.normal_pdf. to_dbl.
  replace (SFdiv prec emax
             (SFmul prec emax (SFopp (S754_infinity s)) (S754_infinity s))
             (of_Z 2))
    with (S754_infinity true) by (destruct s; reflexivity).
  rewrite exp_neg_inf. reflexivity.
Qed.

(** X16: at the infinities [normal_cdf] takes the limits of the
    distribution function, 1 at [+inf] and 0 at [-inf]. *)
Theorem normal_cdf_inf :
  math.normal_cdf (S754_infinity false) = 1 /\
  math.normal_cdf (S754_infinity true) = 0.
Proof.
  assert (E : math.normal_cdf_tail (S754_infinity false) = 1).
  { unfold math.normal_cdf_tail. rewrite normal_pdf_inf.
    vm_compute. reflexivity. }
  unfold math.normal_cdf. to_dbl. cbn [SFltb SFcompare SFopp negb].
  change (match of_Z 0 with S754_nan => None | _ => Some Gt end)
    with (Some Gt).
  change (match of_Z 0 with S754_nan => None | _ => Some Lt end)
    with (Some Lt).
  cbv iota. to_dbl. rewrite E. split; reflexivity.
Qed.
End AtInfinity.

(** *** A NaN [d1] in the model *)

Lemma sub_nan_l (x : spec_float) : SFsub prec emax S754_nan x = S754_nan.
Proof. reflexivity. Qed.

Lemma add_nan_l (x : spec_float) : SFadd prec emax S754_nan x = S754_nan.
Proof. reflexivity. Qed.

(** X17: if [d1] is a NaN (at zero volatility this is the case when the
    numerator of [d1] is zero, see C10), then after any reads the call and
    put prices are NaN, and so are delta, theta and rho of the call and of
    the put: nothing signals it. *)
Theorem nan_d1_propagates
  (info : model.BlackScholesCreateInfo spec_float)
  (m : model.BlackScholesModel spec_float) (qs : list model.read) :
  model.BlackScholesModel_ctor info = inr m ->
  is_nan (model_facts.spec_d1 info) = true ->
  let m' := model.do_reads m qs in
  let cg := fst (model.call_greeks m') in
  let pg := fst (model.put_greeks m') in
  is_nan (fst (model.call_price m')) = true /\
  is_nan (fst (model.put_price m')) = true /\
  (is_nan (model.delta cg) = true /\ is_nan (model.delta pg) = true) /\
  (is_nan (model.theta cg) = true /\ is_nan (model.theta pg) = true) /\
  (is_nan (model.rho cg) = true /\ is_nan (model.rho pg) = true).
Proof.
  intros E Hd m' cg pg.
  pose proof (model_facts.reachable_consistent info qs E) as C. fold m' in C.
  assert (E1 : model_facts.spec_d1 info = S754_nan)
    by (destruct (model_facts.spec_d1 info); try discriminate; reflexivity).
  assert (E2 : model_facts.spec_d2 info = S754_nan)
    by (unfold model_facts.spec_d2; rewrite E1; reflexivity).
  assert (HC : fst (model.call_price m') = S754_nan).
  { rewrite (proj1 (model_facts.call_price_consistent C)).
    unfold model_facts.spec_call_price.
    rewrite E1, E2, (normal_cdf_of_nan S754_nan eq_refl).
    to_dbl. now rewrite !mul_nan_r, sub_nan_r. }
  assert (HP : fst (model.put_price m') = S754_nan).
  { rewrite (proj1 (model_facts.put_price_consistent C)).
    unfold model_facts.spec_put_price.
    rewrite <- (proj1 (model_facts.call_price_consistent C)), HC.
    reflexivity. }
  assert (Hcg : cg = model_facts.spec_call_greeks info)
    by apply (model_facts.call_greeks_consistent C).
  assert (Hpg : pg = model_facts.spec_put_greeks info)
    by apply (model_facts.put_greeks_consistent C).
  rewrite HC, HP, Hcg, Hpg.
  unfold model_facts.spec_call_greeks, model_facts.spec_put_greeks.
  cbn [model.delta model.theta model.rho].
  rewrite E1, E2. to_dbl. cbn [SFopp].
  rewrite !(normal_cdf_of_nan S754_nan eq_refl).
  rewrite !mul_nan_r, !sub_nan_r, !add_nan_r.
  repeat split; reflexivity.
Qed.

(** *** An engine with no trial *)

(** X18: with [num_simulations = 0] a pricing call draws nothing, leaves
    the generator where it was, and returns NaN for the price and for the
    standard error of the call and of the put, under every policy and for
    every market input. *)
Theorem no_trials_nan (Gen : Type) (normal_draw : Gen -> spec_float * Gen)
  (seed : Z) (pol : method.ExecutionPolicy) (g : Gen)
  (S0 K r sigma time : spec_float) :
  let this :=
    {| method.config_ :=
         {| method.num_simulations := 0; method.seed := seed;
            method.policy := pol |};
       method.gen_ := g |} in
  let out :=
    method.price_european_call_and_put normal_draw S0 K r sigma time this in
  (is_nan (method.price (method.call (fst out))) = true /\
   is_nan (method.standard_error (method.call (fst out))) = true) /\
  (is_nan (method.price (method.put (fst out))) = true /\
   is_nan (method.standard_error (method.put (fst out))) = true) /\
  method.gen_ (snd out) = g.
Proof.
  intros this out. subst out this.
  rewrite method_facts.price_paired.
  unfold method_facts.paired_payoffs. cbn.
  rewrite !mul_nan_r. repeat split; reflexivity.
Qed.

(** *** NaN payoffs and unchecked market inputs *)

Lemma div_nan_l (x : spec_float) : SFdiv prec emax S754_nan x = S754_nan.
Proof. reflexivity. Qed.

Lemma accumulate_nan (l : list spec_float) :
  fold_left (fun acc payoff => acc + payoff) l S754_nan = S754_nan.
Proof. induction l as [ | x l IH]; [ reflexivity | exact IH ]. Qed.

Lemma accumulate_with_nan (l : list spec_float) : forall acc,
  In S754_nan l ->
  fold_left (fun acc payoff => acc + payoff) l acc = S754_nan.
Proof.
  induction l as [ | x l IH]; intros acc Hin; [ destruct Hin | ].
  cbn [fold_left]. destruct Hin as [-> | Hin].
  - to_dbl. rewrite add_nan_r. apply accumulate_nan.
  - now apply IH.
Qed.

Lemma accumulate_squares_nan (l : list spec_float) : forall acc,
  l <> [] ->
  fold_left (fun variance payoff =>
               let diff := payoff - S754_nan in variance + diff * diff)
    l acc = S754_nan.
Proof.
  induction l as [ | x l IH]; intros acc Hne; [ congruence | ].
  cbn [fold_left]. to_dbl. rewrite sub_nan_r, add_nan_r.
  destruct l as [ | y l]; [ reflexivity | ]. apply IH. discriminate.
Qed.

Lemma price_with_nan (payoffs : list spec_float) (DF : spec_float) :
  In S754_nan payoffs ->
  method.price (method.compute_statistics payoffs DF) = S754_nan.
Proof.
  intros Hin. unfold method.compute_statistics. cbn [method.price].
  rewrite (accumulate_with_nan payoffs _ Hin).
  to_dbl. cbn [SFdiv]. apply mul_nan_r.
Qed.

Lemma standard_error_with_nan (payoffs : list spec_float)
  (DF : spec_float) :
  In S754_nan payoffs ->
  method.standard_error (method.compute_statistics payoffs DF) = S754_nan.
Proof.
  intros Hin. unfold method.compute_statistics. cbn [method.standard_error].
  rewrite (accumulate_with_nan payoffs _ Hin).
  to_dbl. cbn [SFdiv].
  rewrite accumulate_squares_nan by (intros ->; destruct Hin).
  cbn [SFdiv SFsqrt]. apply mul_nan_r.
Qed.

(** X22: one NaN among the payoffs makes both the price and the standard
    error NaN, whatever the other payoffs and the discount factor. *)
Theorem statistics_nan (payoffs : list spec_float) (DF : spec_float) :
  In S754_nan payoffs ->
  is_nan (method.price (method.compute_statistics payoffs DF)) = true /\
  is_nan (method.standard_error (method.compute_statistics payoffs DF))
  = true.
Proof.
  intros Hin. unfold method.compute_statistics.
  cbn [method.price method.standard_error].
  rewrite (accumulate_with_nan payoffs _ Hin).
  to_dbl. cbn [SFdiv]. rewrite mul_nan_r.
  rewrite accumulate_squares_nan by (intros ->; destruct Hin).
  cbn [SFdiv SFsqrt]. rewrite mul_nan_r. split; reflexivity.
Qed.

Section NegativeMaturity.
(** The C library returns NaN for [exp(NaN)]. *)
Hypothesis exp_nan : libm_exp S754_nan = S754_nan.

Lemma sqrt_negative (x : spec_float) :
  SFltb x (of_Z 0) = true -> SFsqrt prec emax x = S754_nan.
Proof.
  destruct x as [s | s | | s m e]; try destruct s; cbn;
    try discriminate; reflexivity.
Qed.

Lemma terminal_price_nan (S0 r sigma time z : spec_float) :
  SFltb time (of_Z 0) = true ->
  method.terminal_price S0 r sigma time z = S754_nan.
Proof.
  intros Ht. unfold method.terminal_price. to_dbl.
  rewrite (sqrt_negative time Ht), mul_nan_r. cbn [SFmul].
  now rewrite add_nan_r, exp_nan, mul_nan_r.
Qed.

(** X23: the market inputs of a pricing call are not checked: with a
    negative time to maturity and at least one trial, the call returns
    NaN for both prices and both standard errors, under every policy, and
    still consumes its [N] variates. *)
Theorem negative_maturity_nan (Gen : Type)
  (normal_draw : Gen -> spec_float * Gen)
  (this : method.MonteCarloPricer Gen) (S0 K r sigma time : spec_float) :
  (1 <= method.num_simulations (method.config_ this))%Z ->
  SFltb time (of_Z 0) = true ->
  let out :=
    method.price_european_call_and_put normal_draw S0 K r sigma time this in
  (is_nan (method.price (method.call (fst out))) = true /\
   is_nan (method.standard_error (method.call (fst out))) = true) /\
  (is_nan (method.price (method.put (fst out))) = true /\
   is_nan (method.standard_error (method.put (fst out))) = true) /\
  method.gen_ (snd out)
  = snd (method_facts.draws normal_draw
           (Z.to_nat (method.num_simulations (method.config_ this)))
           (method.gen_ this)).
Proof.
  intros HN Ht out. subst out. rewrite method_facts.price_paired.
  unfold method_facts.paired_payoffs.
  cbn [method.statistics_of fst snd method.call method.put method.gen_].
  pose proof (method_facts.draws_length normal_draw
                (Z.to_nat (method.num_simulations (method.config_ this)))
                (method.gen_ this)) as L.
  destruct (fst (method_facts.draws normal_draw
                   (Z.to_nat (method.num_simulations (method.config_ this)))
                   (method.gen_ this))) as [ | z zs].
  - cbn in L. lia.
  - cbn [map]. rewrite (terminal_price_nan S0 r sigma time z Ht).
    assert (Ec : method.call_payoff K S754_nan = S754_nan) by reflexivity.
    assert (Ep : method.put_payoff K S754_nan = S754_nan)
      by (unfold method.put_payoff, std_max; to_dbl;
          now rewrite sub_nan_r).
    rewrite Ec, Ep.
    assert (Hin : forall l : list spec_float, In S754_nan (S754_nan :: l))
      by (intros l; now left).
    rewrite !price_with_nan, !standard_error_with_nan by apply Hin.
    repeat split; reflexivity.
Qed.
End NegativeMaturity.
End Libm.

Lemma normal_cdf_inf_witness :
  math.normal_cdf (H := dbl exp_special exp_special) (S754_infinity false)
  = of_Z 1.
Proof.
  refine (proj1 (@normal_cdf_inf exp_special exp_special _)).
  reflexivity.
Defined.

(** [log] at the special values, NaN elsewhere; for concrete instances. *)
Definition log_special (x : spec_float) : spec_float :=
  match x with
  | S754_finite false 4503599627370496 (-52) => S754_zero false
  | S754_zero _ => S754_infinity true
  | S754_infinity false => x
  | _ => S754_nan
  end.

(** At the money, with no rate and no volatility. *)
Definition flat_info : model.BlackScholesCreateInfo spec_float :=
  {| model.spot_price := of_Z 100;
     model.strike_price := of_Z 100;
     model.risk_free_rate := of_Z 0;
     model.volatility := of_Z 0;
     model.time_to_maturity := of_Z 1 |}.

Lemma nan_d1_propagates_witness :
  let A := dbl exp_special log_special in
  is_nan (fst (model.call_price (H := A)
                 (model.do_reads (model_facts.fresh (H := A) flat_info)
                    [model.read_put_greeks])))
  = true.
Proof.
  refine (proj1 (@nan_d1_propagates exp_special log_special flat_info _
                   [model.read_put_greeks] _ _)).
  - vm_compute. reflexivity.
  - vm_compute. reflexivity.
Defined.

Lemma statistics_nan_witness :
  is_nan
    (method.price
       (method.compute_statistics (H := dbl exp_special log_special)
          [of_Z 1; S754_nan; of_Z 3] (of_Z 1)))
  = true.
Proof.
  refine (proj1 (@statistics_nan exp_special log_special
                   [of_Z 1; S754_nan; of_Z 3] (of_Z 1) _)).
  right. left. reflexivity.
Defined.

(** A source that returns 1.0 for ever. *)
Definition unit_draw (g : unit) : spec_float * unit := (of_Z 1, g).

Lemma negative_maturity_nan_witness :
  let out :=
    method.price_european_call_and_put (H := dbl exp_special log_special)
      unit_draw (of_Z 100) (of_Z 100) (of_dec 5 2) (of_dec 2 1) (of_Z (-1))
      {| method.config_ :=
           {| method.num_simulations := 10; method.seed := 42;
              method.policy := method.Sequential |};
         method.gen_ := tt |} in
  is_nan (method.price (method.call (fst out))) = true.
Proof.
  refine (proj1 (proj1
            (@negative_maturity_nan exp_special log_special _ unit
               unit_draw
               {| method.config_ :=
                    {| method.num_simulations := 10; method.seed := 42;
                       method.policy := method.Sequential |};
                  method.gen_ := tt |}
               (of_Z 100) (of_Z 100) (of_dec 5 2) (of_dec 2 1) (of_Z (-1))
               _ _))).
  - reflexivity.
  - cbn. lia.
  - reflexivity.
Defined.
End binary64_more.


(** ** [demos/math_demo.cpp] in binary64 *)

Module math_demo.
Import binary64 binary64_facts binary64_more.

Section Libm.
Variables libm_exp libm_log : spec_float -> spec_float.

#[local] Instance dbl_demo : Arithmetic spec_float :=
  double libm_exp libm_log.

Local Open Scope arith_scope.

(** [std::abs] on [double] *)
Definition std_abs (x : spec_float) : spec_float := SFabs x.

Definition eps_7 : spec_float := of_decimal 1 7.
Definition eps_10 : spec_float := of_decimal 1 10.

(** The conditions of the five [assert]s of [main], in order. *)
Definition assert_cdf_0 : bool :=
  let cdf_0 := math.normal_cdf (of_decimal 0 1) in
  std_abs (cdf_0 - of_decimal 5 1) <? eps_7.

Definition assert_cdf_1 : bool :=
  let cdf_1 := math.normal_cdf (of_decimal 10 1) in
  std_abs (cdf_1 - of_decimal 8413447460685429 16) <? eps_7.

Definition assert_cdf_neg1 : bool :=
  let cdf_neg1 := math.normal_cdf (- of_decimal 10 1) in
  std_abs (cdf_neg1 - of_decimal 1586552539314571 16) <? eps_7.

Definition assert_cdf_2 : bool :=
  let cdf_2 := math.normal_cdf (of_decimal 20 1) in
  std_abs (cdf_2 - of_decimal 9772498680518208 16) <? eps_7.

Definition assert_symmetry : bool :=
  let x := of_decimal 15 1 in
  let symmetry_test := math.normal_cdf x + math.normal_cdf (- x) in
  std_abs (symmetry_test - of_decimal 10 1) <? eps_10.

Definition main_asserts : list bool :=
  [assert_cdf_0; assert_cdf_1; assert_cdf_neg1; assert_cdf_2;
   assert_symmetry].

(** The values of [exp] the demo needs, correctly rounded: at [-0.0],
    [-0.5], [-2.0] and [-1.125]. *)
Hypothesis exp_zero : libm_exp (S754_zero true) = of_Z 1.
Hypothesis exp_half :
  libm_exp (S754_finite true 4503599627370496 (-53))
  = S754_finite false 5463142506141194 (-53).
Hypothesis exp_two :
  libm_exp (S754_finite true 4503599627370496 (-51))
  = S754_finite false 4875967449235916 (-55).
Hypothesis exp_nine_eighths :
  libm_exp (S754_finite true 5066549580791808 (-52))
  = S754_finite false 5848418924079904 (-54).

Ltac eval_exp :=
  unfold math.normal_cdf, math.normal_cdf_tail, math.normal_pdf;
  cbn [of_int of_decimal op_add op_sub op_mul op_div op_neg op_lt op_le
       std_sqrt std_exp std_log inv_sqrtpi_v sqrt2_v dbl_demo double
       binary64_Arithmetic];
  repeat match goal with
         | |- context [libm_exp ?a] =>
             let a' := eval vm_compute in a in
             progress change a with a'
         end;
  rewrite ?exp_zero, ?exp_half, ?exp_two, ?exp_nine_eighths.

(** X19: every assertion of the demo holds in binary64, so the program
    reaches its last line: [normal_cdf] is within [1e-7] of 0.5 at 0 and of
    the reference values at 1, -1 and 2, and [normal_cdf(1.5) +
    normal_cdf(-1.5)] is within [1e-10] of 1. *)
Theorem math_demo_passes :
  main_asserts = [true; true; true; true; true].
Proof.
  unfold main_asserts, assert_cdf_0, assert_cdf_1, assert_cdf_neg1,
    assert_cdf_2, assert_symmetry, std_abs, eps_7, eps_10.
  eval_exp. vm_compute. reflexivity.
Qed.
End Libm.

(** A table of the four values, over [exp_special]. *)
Definition exp_table (x : spec_float) : spec_float :=
  match x with
  | S754_finite true 4503599627370496 (-53) =>
      S754_finite false 5463142506141194 (-53)
  | S754_finite true 4503599627370496 (-51) =>
      S754_finite false 4875967449235916 (-55)
  | S754_finite true 5066549580791808 (-52) =>
      S754_finite false 5848418924079904 (-54)
  | _ => exp_special x
  end.

Lemma math_demo_passes_witness :
  main_asserts exp_table log_special = [true; true; true; true; true].
Proof.
  refine (@math_demo_passes exp_table log_special _ _ _ _); reflexivity.
Defined.
End math_demo.


(** ** Put-call parity in binary64: the check of
    [demos/black_scholes_demo.cpp] *)

Module parity_demo.
Import binary64 binary64_facts binary64_more.

Section Libm.
Variables libm_exp libm_log : spec_float -> spec_float.

#[local] Instance dbl_parity : Arithmetic spec_float :=
  double libm_exp libm_log.

Local Open Scope arith_scope.

(** The parity check of [main], for any contract [info]: the object is
    built, the call and then the put are read, and the distance between
    [call - put] and [S - K * exp(-r * T)] is taken.  The result is the
    exception when the constructor throws. *)
Definition parity_gap (info : model.BlackScholesCreateInfo spec_float)
  : exception + spec_float :=
  match model.BlackScholesModel_ctor info with
  | inl e => inl e
  | inr bs =>
      let (call, bs) := model.call_price bs in
      let (put, bs) := model.put_price bs in
      let parity := call - put in
      let expected_parity :=
        model.spot_price info
        - model.strike_price info
          * std_exp (- model.risk_free_rate info
                     * model.time_to_maturity info) in
      inr (SFabs (parity - expected_parity))
  end.

(** The condition of the [assert]. *)
Definition parity_assert (info : model.BlackScholesCreateInfo spec_float)
  : exception + bool :=
  match parity_gap info with
  | inl e => inl e
  | inr gap => inr (gap <? of_decimal 1 10)
  end.
End Libm.

(** The values of [exp] the contracts below need, correctly rounded: at
    [-0.05], at [-d1 * d1 / 2] and at [-d2 * d2 / 2] for [d1 = 0.35] and
    [d2 = 0.15] as [compute_d] rounds them. *)
Definition exp_parity (x : spec_float) : spec_float :=
  match x with
  | S754_finite true 7205759403792794 (-57) =>
      S754_finite false 8567912963450534 (-53)
  | S754_finite true 8827055269646174 (-57) =>
      S754_finite false 8472064103353575 (-53)
  | S754_finite true 6485183463413516 (-59) =>
      S754_finite false 8906436118500470 (-53)
  | _ => exp_special x
  end.

(** At the money, rate 5%, volatility 20%, one year: the contract of the
    demo for [S = K = 100]. *)
Definition at_the_money (S : Z) : model.BlackScholesCreateInfo spec_float :=
  {| model.spot_price := of_Z S;
     model.strike_price := of_Z S;
     model.risk_free_rate := of_dec 5 2;
     model.volatility := of_dec 20 2;
     model.time_to_maturity := of_Z 1 |}.

(** The demo's own contract passes its check: the distance is zero. *)
Lemma parity_assert_demo :
  parity_gap exp_parity log_special (at_the_money 100)
  = inr (S754_zero false) /\
  parity_assert exp_parity log_special (at_the_money 100) = inr true.
Proof. vm_compute. split; reflexivity. Qed.

(** C3, the tolerance: in binary64 the parity check of the demo fails on
    validated contracts.  At the money with rate 5%, volatility 20% and
    one year, the distance between [call - put] and [S - K * exp(-r T)]
    is [2^-32], about [2.3e-10], for [S = K = 2.5e6], and [2^-30], about
    [9.3e-10], for [S = K = 1e7]: the subtraction [call - S] is rounded at
    the magnitude of [S].  With [S = K], no rate and no volatility, which
    validation accepts, [d1] is [0 / 0], both prices are NaN, and so is
    the distance.  In each case the constructor succeeds and the
    condition [distance < 1e-10] is false. *)
Lemma put_call_parity_fails_in_binary64 :
  parity_gap exp_parity log_special (at_the_money 2500000)
  = inr (S754_finite false 4503599627370496 (-84)) /\
  parity_assert exp_parity log_special (at_the_money 2500000) = inr false /\
  parity_gap exp_parity log_special (at_the_money 10000000)
  = inr (S754_finite false 4503599627370496 (-82)) /\
  parity_assert exp_parity log_special (at_the_money 10000000) = inr false /\
  parity_gap exp_parity log_special flat_info = inr S754_nan /\
  parity_assert exp_parity log_special flat_info = inr false.
Proof. vm_compute. repeat split; reflexivity. Qed.
End parity_demo.


(** ** The estimates at zero volatility in binary64 *)

Module estimates_binary64.
Import binary64 binary64_facts binary64_more.

(** Three trials, run in sequence. *)
Definition three_sequential : method.MonteCarloPricer unit :=
  {| method.config_ :=
       {| method.num_simulations := 3; method.seed := 42;
          method.policy := method.Sequential |};
     method.gen_ := tt |}.

(** X24: in binary64 the estimates at zero volatility are not exact.  With
    spot [100], strike [0.1], no rate, one year and three trials, every
    path ends at [100] and every call payoff is [99.9] (rounded), but the
    sum of the three divided by [3] rounds one unit in the last place
    above the payoff: the call price is that mean, not the payoff, and
    the standard error is about [1.0e-14], not zero. *)
Theorem zero_volatility_rounding :
  let A := dbl exp_special log_special in
  let S0 := of_Z 100 in
  let K := of_dec 1 1 in
  let out :=
    fst (method.price_european_call_and_put (H := A) unit_draw
           S0 K (of_Z 0) (of_Z 0) (of_Z 1) three_sequential) in
  method.terminal_price (H := A) S0 (of_Z 0) (of_Z 0) (of_Z 1) (of_Z 1) = S0 /\
  method.call_payoff (H := A) K S0 = S754_finite false 7029837543348634 (-46) /\
  method.price (method.call out) = S754_finite false 7029837543348635 (-46) /\
  method.standard_error (method.call out)
  = S754_finite false 6369051672525773 (-99) /\
  method.standard_error (method.put out) = S754_zero false.
Proof. vm_compute. repeat split; reflexivity. Qed.
End estimates_binary64.


(** ** Recursion depth and idempotence, for every numeric type *)

Module generic_more.
Import model.

Section Generic.
Context {T : Type} `{Arithmetic T}.
Local Open Scope arith_scope.

(** X20: [normal_cdf] returns for every argument, after at most one
    recursive call: a negative argument needs exactly one (a depth of 1 is
    not enough, any depth from 2 on is), any other argument none. *)
Theorem normal_cdf_depth (fuel : nat) (x : T) :
  math.normal_cdf_rec (S (S fuel)) x = Some (math.normal_cdf x) /\
  math.normal_cdf_rec 1 x
  = (if x <? 0 then None else Some (math.normal_cdf x)).
Proof.
  split.
  - unfold math.normal_cdf. cbn [math.normal_cdf_rec].
    destruct (x <? 0) eqn:Hx; [ | reflexivity ].
    now rewrite (op_lt_neg x Hx).
  - unfold math.normal_cdf. cbn [math.normal_cdf_rec].
    now destruct (x <? 0).
Qed.

Lemma compute_d_idem (m : BlackScholesModel T) :
  compute_d (compute_d m) = compute_d m.
Proof.
  unfold compute_d at 1.
  destruct (d_cached_ (compute_d m)) eqn:E; [ reflexivity | ].
  unfold compute_d in E. destruct (d_cached_ m) eqn:E'; cbn in E; congruence.
Qed.

Lemma compute_call_greeks_idem (m : BlackScholesModel T) :
  compute_call_greeks (compute_call_greeks m) = compute_call_greeks m.
Proof.
  unfold compute_call_greeks at 1.
  destruct (call_greeks_cached_ (compute_call_greeks m)) eqn:E;
    [ reflexivity | ].
  unfold compute_call_greeks in E.
  destruct (call_greeks_cached_ m) eqn:E'; cbn in E; congruence.
Qed.

Lemma compute_put_greeks_idem (m : BlackScholesModel T) :
  compute_put_greeks (compute_put_greeks m) = compute_put_greeks m.
Proof.
  unfold compute_put_greeks at 1.
  destruct (put_greeks_cached_ (compute_put_greeks m)) eqn:E;
    [ reflexivity | ].
  unfold compute_put_greeks in E.
  destruct (put_greeks_cached_ m) eqn:E'; cbn in E; congruence.
Qed.

(** X21: every read is idempotent on every object, whatever its caches
    hold: read a second time in a row, [call_price], [put_price],
    [call_greeks] and [put_greeks] return the value they returned the
    first time, and the second read leaves the object as the first left
    it. *)
Theorem reads_idempotent (m : BlackScholesModel T) :
  (call_price (snd (call_price m))
   = (fst (call_price m), snd (call_price m))) /\
  (put_price (snd (put_price m))
   = (fst (put_price m), snd (put_price m))) /\
  (call_greeks (snd (call_greeks m))
   = (fst (call_greeks m), snd (call_greeks m))) /\
  (put_greeks (snd (put_greeks m))
   = (fst (put_greeks m), snd (put_greeks m))).
Proof.
  repeat split.
  - unfold call_price. cbn [fst snd]. now rewrite !compute_d_idem.
  - unfold put_price, call_price. cbn [fst snd]. now rewrite !compute_d_idem.
  - unfold call_greeks. cbn [fst snd]. now rewrite !compute_call_greeks_idem.
  - unfold put_greeks. cbn [fst snd]. now rewrite !compute_put_greeks_idem.
Qed.
End Generic.
End generic_more.
